(** * Multipart upload and speech handlers: a shallow embedding

    The development follows [UploadFunction.py] and [PollyFunction.py].

    - Python [bytes] are lists of [Byte.byte].
    - Python [str] are lists of Unicode code points (numbers in [N]); a
      [str] can hold a lone surrogate, which is why [str.encode()] is
      partial.
    - The [fields] dictionary is a [gmap] from [str] to field values.
    - Exceptions are values of [exn]; a function that can raise returns a
      sum, and the per-part [try]/[except] of the decoder is the
      [part_outcome] type.
    - [print] output of the decoder is the list of diagnostics returned
      next to the dictionary. *)

From Stdlib Require Import List NArith ZArith Lia Bool.
From Stdlib Require Import Strings.String Strings.Byte.
From stdpp Require Import base option list gmap.

Local Open Scope N_scope.

Abbreviation bytes := (list byte).
Abbreviation str := (list N).

(** ** Literals *)

(** A bytes literal [b"..."]. *)
Definition blit (s : string) : bytes := list_byte_of_string s.

(** A str literal with ASCII characters only: one code point per byte. *)
Definition slit (s : string) : str := map Byte.to_N (list_byte_of_string s).

#[global] Instance byte_eq_dec : EqDecision byte := Byte.byte_eq_dec.

(** ** Sequence primitives shared by [bytes] and [str] *)

Section Seq.
Context {A : Type} `{EqDecision A}.

(** [s.startswith(pre)] *)
Fixpoint startswith (pre s : list A) : bool :=
  match pre, s with
  | [], _ => true
  | _ :: _, [] => false
  | p :: pre', c :: s' => bool_decide (p = c) && startswith pre' s'
  end.

(** the remainder of [s] after the literal [pre], when [s] starts with it *)
Fixpoint strip_prefix (pre s : list A) : option (list A) :=
  match pre, s with
  | [], _ => Some s
  | _ :: _, [] => None
  | p :: pre', c :: s' =>
      if bool_decide (p = c) then strip_prefix pre' s' else None
  end.

(** the longest prefix of [s] whose items satisfy [f], and what follows *)
Fixpoint span (f : A → bool) (s : list A) : list A * list A :=
  match s with
  | [] => ([], [])
  | c :: s' =>
      if f c then let (run, rest) := span f s' in (c :: run, rest)
      else ([], s)
  end.

Fixpoint dropwhile (f : A → bool) (s : list A) : list A :=
  match s with
  | [] => []
  | c :: s' => if f c then dropwhile f s' else s
  end.

(** [s.split(sep, 1)] at the first occurrence of [sep], if there is one:
    the text before it and the text after it. *)
Fixpoint split_first (sep s : list A) : option (list A * list A) :=
  if startswith sep s then Some ([], drop (length sep) s)
  else
    match s with
    | [] => None
    | c :: s' =>
        match split_first sep s' with
        | Some (before, after) => Some (c :: before, after)
        | None => None
        end
    end.

(** Scanning [s] from the left for non-overlapping occurrences of [sep]:
    the fragment under construction and the fragments after it.  [skip]
    counts the bytes of a separator that has just been recognised and
    is still to be passed over. *)
Fixpoint split_from (sep s : list A) (skip : nat) : list A * list (list A) :=
  match s with
  | [] => ([], [])
  | c :: s' =>
      match skip with
      | S k => split_from sep s' k
      | O =>
          if startswith sep s
          then ([], let (f, fs) := split_from sep s' (length sep - 1) in f :: fs)
          else let (f, fs) := split_from sep s' 0 in (c :: f, fs)
      end
  end.
End Seq.

(** ** Exceptions *)

Inductive exn :=
| ValueError (msg : string)
| KeyError (key : string)
| TypeError (msg : string)
| UnicodeEncodeError
| UnicodeDecodeError
| ServiceError (msg : string).

(** ** bytes methods *)

(** [s.split(sep)]: Python raises [ValueError] on an empty separator. *)
Definition bytes_split (s sep : bytes) : exn + list bytes :=
  match sep with
  | [] => inl (ValueError "empty separator")
  | _ :: _ => inr (let (f, fs) := split_from sep s 0 in f :: fs)
  end.

(** [s.split(sep, 1)]: a list of one or two items. *)
Definition bytes_split1 (s sep : bytes) : list bytes :=
  match split_first sep s with
  | Some (before, after) => [before; after]
  | None => [s]
  end.

(** [s.rstrip(chars)]: [chars] is a set of byte values, every trailing byte
    that belongs to it is removed. *)
Definition bytes_rstrip (s chars : bytes) : bytes :=
  rev (dropwhile (λ c, bool_decide (c ∈ chars)) (rev s)).

(** [l[1:-1]] *)
Definition slice_1_m1 {A} (l : list A) : list A := removelast (tail l).

(** ** UTF-8 *)

Definition byte_of_N (n : N) : byte :=
  match Byte.of_N n with Some b => b | None => x00 end.

(** [c.encode()] for one code point; surrogates are refused.  A [str]
    holds no number from [0x110000] on, the last branch stands for none
    of its characters. *)
Definition encode_char (c : N) : option bytes :=
  if c <? 0x80 then Some [byte_of_N c]
  else if c <? 0x800 then
    Some [byte_of_N (0xC0 + c / 64); byte_of_N (0x80 + c mod 64)]
  else if c <? 0x10000 then
    if (0xD800 <=? c) && (c <=? 0xDFFF) then None
    else Some [byte_of_N (0xE0 + c / 4096);
               byte_of_N (0x80 + (c / 64) mod 64);
               byte_of_N (0x80 + c mod 64)]
  else if c <? 0x110000 then
    Some [byte_of_N (0xF0 + c / 262144);
          byte_of_N (0x80 + (c / 4096) mod 64);
          byte_of_N (0x80 + (c / 64) mod 64);
          byte_of_N (0x80 + c mod 64)]
  else None.

(** [s.encode()] (UTF-8, strict) *)
Fixpoint str_encode (s : str) : exn + bytes :=
  match s with
  | [] => inr []
  | c :: s' =>
      match encode_char c, str_encode s' with
      | Some bs, inr rest => inr (bs ++ rest)
      | _, _ => inl UnicodeEncodeError
      end
  end.

Definition in_range (lo hi x : N) : bool := (lo <=? x) && (x <=? hi).

(** [bs.decode()] (UTF-8, strict): shortest form only, no surrogates,
    nothing above U+10FFFF. *)
Fixpoint bytes_decode (bs : bytes) : exn + str :=
  match bs with
  | [] => inr []
  | b0 :: r0 =>
      let x0 := Byte.to_N b0 in
      let more (c : N) (r : exn + str) : exn + str :=
        match r with inr s => inr (c :: s) | inl e => inl e end in
      if x0 <? 0x80 then more x0 (bytes_decode r0)
      else if x0 <? 0xC2 then inl UnicodeDecodeError
      else if x0 <? 0xE0 then
        match r0 with
        | b1 :: r1 =>
            let x1 := Byte.to_N b1 in
            if in_range 0x80 0xBF x1
            then more ((x0 - 0xC0) * 64 + (x1 - 0x80)) (bytes_decode r1)
            else inl UnicodeDecodeError
        | _ => inl UnicodeDecodeError
        end
      else if x0 <? 0xF0 then
        match r0 with
        | b1 :: b2 :: r2 =>
            let x1 := Byte.to_N b1 in
            let x2 := Byte.to_N b2 in
            let lo := if x0 =? 0xE0 then 0xA0 else 0x80 in
            let hi := if x0 =? 0xED then 0x9F else 0xBF in
            if in_range lo hi x1 && in_range 0x80 0xBF x2
            then more ((x0 - 0xE0) * 4096 + (x1 - 0x80) * 64 + (x2 - 0x80))
                      (bytes_decode r2)
            else inl UnicodeDecodeError
        | _ => inl UnicodeDecodeError
        end
      else if x0 <? 0xF5 then
        match r0 with
        | b1 :: b2 :: b3 :: r3 =>
            let x1 := Byte.to_N b1 in
            let x2 := Byte.to_N b2 in
            let x3 := Byte.to_N b3 in
            let lo := if x0 =? 0xF0 then 0x90 else 0x80 in
            let hi := if x0 =? 0xF4 then 0x8F else 0xBF in
            if in_range lo hi x1 && in_range 0x80 0xBF x2 && in_range 0x80 0xBF x3
            then more ((x0 - 0xF0) * 262144 + (x1 - 0x80) * 4096
                       + (x2 - 0x80) * 64 + (x3 - 0x80))
                      (bytes_decode r3)
            else inl UnicodeDecodeError
        | _ => inl UnicodeDecodeError
        end
      else inl UnicodeDecodeError
  end.

(** ** The two regular expressions

    In the comments below [Q] stands for the double quote character of
    the patterns.  Both patterns are a literal followed by a greedy
    negated character class (which admits every other character, line
    ends included), so a match attempt at a position is decided by the
    literal and the longest run of admissible characters after it;
    [re.search] returns the match at the leftmost position that has
    one. *)

Definition semicolon : N := 59.
Definition dquote : N := 34.

Definition is_not (c x : N) : bool := negb (x =? c).

(** [boundary=([^;]+)] tried at the start of [s]: group 1 *)
Definition match_boundary_at (s : str) : option str :=
  match strip_prefix (slit "boundary=") s with
  | Some rest =>
      match fst (span (is_not semicolon) rest) with
      | [] => None
      | tok => Some tok
      end
  | None => None
  end.

(** [re.search] of [boundary=([^;]+)] in [s]: group 1 of the leftmost match *)
Fixpoint re_search_boundary (s : str) : option str :=
  match match_boundary_at s with
  | Some tok => Some tok
  | None =>
      match s with
      | [] => None
      | _ :: s' => re_search_boundary s'
      end
  end.

Definition cd_prefix : str :=
  slit "Content-Disposition: form-data; name=" ++ [dquote].
Definition fn_prefix : str := slit "; filename=" ++ [dquote].

(** [([^Q]+)Q] tried at the start of [s]: the group and the text after the
    closing quote *)
Definition quoted_run (s : str) : option (str * str) :=
  match span (is_not dquote) s with
  | ((_ :: _) as run, _ :: rest) => Some (run, rest)  (* the run ends at a quote *)
  | _ => None
  end.

(** [(?:; filename=Q([^Q]+)Q)?] tried at the start of [s]: group 2, [None]
    when the optional group does not take part in the match *)
Definition match_filename_at (s : str) : option str :=
  match strip_prefix fn_prefix s with
  | Some s' =>
      match quoted_run s' with
      | Some (filename, _) => Some filename
      | None => None
      end
  | None => None
  end.

(** the whole pattern tried at the start of [s]: groups 1 and 2 *)
Definition match_content_disposition_at (s : str) : option (str * option str) :=
  match strip_prefix cd_prefix s with
  | Some s1 =>
      match quoted_run s1 with
      | Some (name, s2) => Some (name, match_filename_at s2)
      | None => None
      end
  | None => None
  end.

(** [re.search] of
    [Content-Disposition: form-data; name=Q([^Q]+)Q(?:; filename=Q([^Q]+)Q)?]
    in [s]: groups 1 and 2 of the leftmost match *)
Fixpoint re_search_content_disposition (s : str) : option (str * option str) :=
  match match_content_disposition_at s with
  | Some groups => Some groups
  | None =>
      match s with
      | [] => None
      | _ :: s' => re_search_content_disposition s'
      end
  end.

(** ** The multipart decoder: [parse_multipart_form_data] *)

Inductive field_value :=
| Plain (value : str)
| FileField (filename : str) (content : bytes).

(** What one iteration of the loop over the parts does: it assigns
    [fields[name]], or leaves the loop body by [continue], or an exception
    reaches the [except] clause, which prints it. *)
Inductive part_outcome :=
| Store (name : str) (v : field_value)
| Continue
| Caught (e : exn).

Definition CR : byte := x0d.
Definition LF : byte := x0a.
Definition CRLF : bytes := [CR; LF].
Definition blank_line : bytes := CRLF ++ CRLF.

(** [if filename:] on a regular expression group *)
Definition truthy (g : option str) : bool :=
  match g with
  | Some (_ :: _) => true
  | _ => false
  end.

(** unpacking a list of one item into two names *)
Definition unpack_error : exn :=
  ValueError "not enough values to unpack (expected 2, got 1)".

Definition parse_part (part : bytes) : part_outcome :=
  match bytes_split1 part blank_line with
  | [part_headers; part_body] =>
      match bytes_decode part_headers with
      | inl e => Caught e
      | inr part_headers =>
          match re_search_content_disposition part_headers with
          | None => Continue
          | Some (name, filename) =>
              if truthy filename
              then Store name (FileField (default [] filename)
                                         (bytes_rstrip part_body CRLF))
              else
                match bytes_decode (bytes_rstrip part_body CRLF) with
                | inl e => Caught e
                | inr value => Store name (Plain value)
                end
          end
      end
  | _ => Caught unpack_error
  end.

(** The state of the loop: the dictionary and the lines printed so far. *)
Definition loop_step (st : gmap str field_value * list exn) (part : bytes)
  : gmap str field_value * list exn :=
  match parse_part part with
  | Store name v => (<[name := v]> st.1, st.2)
  | Continue => st
  | Caught e => (st.1, st.2 ++ [e])
  end.

Definition missing_boundary : exn :=
  ValueError "Invalid Content-Type header: missing boundary".

Definition parse_multipart_form_data (body : bytes) (content_type : str)
  : exn + (gmap str field_value * list exn) :=
  match re_search_boundary content_type with
  | None => inl missing_boundary
  | Some boundary =>
      match str_encode boundary with
      | inl e => inl e
      | inr boundary_bytes =>
          match bytes_split body (blit "--" ++ boundary_bytes) with
          | inl e => inl e
          | inr parts => inr (foldl loop_step (∅, []) (slice_1_m1 parts))
          end
      end
  end.

Definition ex_body : bytes :=
  blit "--B" ++ CRLF
  ++ blit "Content-Disposition: form-data; name=" ++ [x22] ++ blit "file" ++ [x22]
  ++ blit "; filename=" ++ [x22] ++ blit "a.mp3" ++ [x22] ++ blank_line
  ++ blit "ID3 data" ++ CRLF ++ blit "--B--".


(** ** The upload handler: [UploadFunction.lambda_handler] *)

(** Raising and propagating exceptions. *)
#[global] Instance exn_ret : MRet (sum exn) := λ A x, inr x.
#[global] Instance exn_bind : MBind (sum exn) :=
  λ A B f m, match m with inl e => inl e | inr x => f x end.
Definition raise {A} (e : exn) : exn + A := inl e.

(** [d[key]] on an event: [KeyError] when the key is absent. *)
Definition getitem {A} (key : string) (field : option A) : exn + A :=
  match field with
  | Some x => inr x
  | None => raise (KeyError key)
  end.

Inductive response_body :=
| Message (text : string)
| Failure (prefix : string) (e : exn)
| Uploaded (file_key : str)
| Saved (bucket_name file_name : str).

Record response := { statusCode : Z; body : response_body }.

Module UploadFunction.

(** The request as the gateway delivers it. *)
Record event := {
  ev_body : option str;
  ev_headers : option (list (str * str));
}.

(** What the handler reads from its surroundings: [str.lower], the
    process environment, the clock, [uuid.uuid4] and the outcome of the
    storage call (the exception it raises, if any). *)
Record world := {
  lower : str → str;
  environ_INPUT_BUCKET : option str;
  strftime_now : str;
  uuid4 : str;
  s3_put_object : str → str → bytes → option exn;
}.

(** [{k.lower(): v for k, v in items}] *)
Definition lowercase_keys (w : world) (items : list (str * str)) : gmap str str :=
  foldl (λ m kv, <[lower w kv.1 := kv.2]> m) ∅ items.

(** The body of the [try] block. [log_upload_metadata] catches whatever
    its own call raises and so adds no outcome of its own. *)
Definition handle (w : world) (ev : event) : exn + response :=
  body_text ← getitem "body" (ev_body ev);
  body ← str_encode body_text;
  items ← getitem "headers" (ev_headers ev);
  let headers := lowercase_keys w items in
  match headers !! slit "content-type" with
  | None | Some [] => raise (ValueError "Missing 'Content-Type' header.")
  | Some content_type =>
      parsed ← parse_multipart_form_data body content_type;
      let fields := parsed.1 in
      match fields !! slit "file" with
      | None => raise (ValueError "Missing file in the request.")
      | Some (Plain _) => raise (TypeError "string indices must be integers")
      | Some (FileField file_name file_content) =>
          match file_content with
          | [] => raise (ValueError "File content is empty.")
          | _ :: _ =>
              let s3_file_key :=
                strftime_now w ++ slit "_" ++ take 4 (uuid4 w) ++ slit ".mp3" in
              bucket_name ← getitem "INPUT_BUCKET" (environ_INPUT_BUCKET w);
              match s3_put_object w bucket_name s3_file_key file_content with
              | Some e => raise e
              | None => mret {| statusCode := 200; body := Uploaded s3_file_key |}
              end
          end
      end
  end.

Definition lambda_handler (w : world) (ev : event) : response :=
  match handle w ev with
  | inr r => r
  | inl e => {| statusCode := 500; body := Failure "Error: " e |}
  end.

End UploadFunction.

(** ** The speech handler: [PollyFunction.lambda_handler] *)

Module PollyFunction.

Record event := {
  translated_text : option str;
  bucket : option str;
  output_file : option str;
}.

(** The synthesis call raises, or answers without an audio stream, or
    with one whose [read()] raises or gives the audio. *)
Record world := {
  uuid4 : str;
  polly_synthesize_speech : str → exn + option (exn + bytes);
  s3_put_object : str → str → bytes → option exn;
}.

Definition output_bucket_name : str :=
  slit "realtime-language-translation-output-bucket".

(** [x or y] on strings *)
Definition or_else (x y : str) : str :=
  match x with [] => y | _ :: _ => x end.

Definition handle (w : world) (ev : event) : exn + response :=
  text ← getitem "translated_text" (translated_text ev);
  input_bucket_name ← getitem "bucket" (bucket ev);
  given_name ← getitem "output_file" (output_file ev);
  let output_file_name := or_else given_name (uuid4 w ++ slit "_speech.mp3") in
  resp ← polly_synthesize_speech w text;
  match resp with
  | Some stream =>
      audio ← stream;
      match s3_put_object w output_bucket_name output_file_name audio with
      | Some e => raise e
      | None =>
          mret {| statusCode := 200;
                  body := Saved output_bucket_name output_file_name |}
      end
  | None =>
      mret {| statusCode := 500;
              body := Message "No AudioStream found in Polly response." |}
  end.

Definition lambda_handler (w : world) (ev : event) : response :=
  match handle w ev with
  | inr r => r
  | inl (KeyError key) =>
      {| statusCode := 400; body := Failure "Missing key: " (KeyError key) |}
  | inl e => {| statusCode := 500; body := Failure "An error occurred: " e |}
  end.

End PollyFunction.

(** ** The handlers with the calls they make and the lines they print *)

(** The lines that the two files print. *)
Inductive printed :=
| ErrorParsingPart (e : exn)
| FileName (file_name : str)
| FileContentLength (n : nat)
| FileUploaded (key : str)
| MetadataLogged (key : str)
| MetadataWarning (e : exn)
| HandlerError (e : exn)
| AudioSaved (bucket_name file_name : str)
| NoAudioStream
| MissingKey (e : exn)
| ErrorOccurred (e : exn).

(** The item that [log_upload_metadata] writes. *)
Record item := {
  file_key : str;
  original_filename : str;
  status : string;
  upload_time : str;
  stage : string;
}.

Inductive effect :=
| Print (line : printed)
| S3PutObject (bucket key : str) (content : bytes) (content_type : string)
              (metadata_upload_time : option str)
| TablePutItem (it : item)
| PollySynthesizeSpeech (text : str) (output_format voice_id : string).

(** A computation that has effects, in their order, and then returns or
    raises. *)
Definition traced (A : Type) : Type := list effect * (exn + A).

#[global] Instance traced_ret : MRet traced := λ A x, ([], inr x).
#[global] Instance traced_bind : MBind traced :=
  λ A B f m,
    match m.2 with
    | inl e => (m.1, inl e)
    | inr x => ((m.1 ++ (f x).1), (f x).2)
    end.

(** a step without effect *)
Definition lift {A} (r : exn + A) : traced A := ([], r).
(** effects that cannot fail *)
Definition emit (es : list effect) : traced unit := (es, inr tt).
(** a call to a service, and the exception it raises, if any *)
Definition call (e : effect) (raised : option exn) : traced unit :=
  ([e], match raised with Some x => inl x | None => inr tt end).

(** the lines that the decoder has printed *)
Definition print_errors (log : list exn) : list effect :=
  map (λ e, Print (ErrorParsingPart e)) log.
#[global] Arguments print_errors : simpl never.

Module Effects.

(** What the upload handler reads besides its [UploadFunction.world]: the
    clock at the storage call and in [log_upload_metadata], and the outcome
    of [table.put_item]. *)
Record table := {
  s3_metadata_time : str;
  table_time : str;
  table_put_item : item → option exn;
}.

(** [log_upload_metadata]: one [put_item], then one line, a confirmation or
    the warning of the [except] clause; nothing is raised. *)
Definition log_upload_metadata (t : table) (file_key original_filename : str)
  : list effect :=
  let it := {| file_key := file_key;
               original_filename := original_filename;
               status := "uploaded";
               upload_time := table_time t;
               stage := "upload" |} in
  TablePutItem it
  :: match table_put_item t it with
     | None => [Print (MetadataLogged file_key)]
     | Some e => [Print (MetadataWarning e)]
     end.

(** The [try] block of [UploadFunction.lambda_handler]. *)
Definition upload_try (w : UploadFunction.world) (t : table)
    (ev : UploadFunction.event) : traced response :=
  body_text ← lift (getitem "body" (UploadFunction.ev_body ev));
  body ← lift (str_encode body_text);
  items ← lift (getitem "headers" (UploadFunction.ev_headers ev));
  content_type ←
    lift (match UploadFunction.lowercase_keys w items !! slit "content-type" with
          | None | Some [] => raise (ValueError "Missing 'Content-Type' header.")
          | Some content_type => inr content_type
          end);
  parsed ← lift (parse_multipart_form_data body content_type);
  _ ← emit (print_errors parsed.2);
  file_field ←
    lift (match parsed.1 !! slit "file" with
          | None => raise (ValueError "Missing file in the request.")
          | Some file_field => inr file_field
          end);
  file ←
    lift (match file_field with
          | Plain _ => raise (TypeError "string indices must be integers")
          | FileField file_name file_content => inr (file_name, file_content)
          end);
  _ ← lift (match file.2 with
            | [] => raise (ValueError "File content is empty.")
            | _ :: _ => inr tt
            end);
  _ ← emit [Print (FileName file.1); Print (FileContentLength (length file.2))];
  let s3_file_key :=
    UploadFunction.strftime_now w ++ slit "_"
    ++ take 4 (UploadFunction.uuid4 w) ++ slit ".mp3" in
  bucket_name ← lift (getitem "INPUT_BUCKET" (UploadFunction.environ_INPUT_BUCKET w));
  _ ← call (S3PutObject bucket_name s3_file_key file.2 "audio/mpeg"
              (Some (s3_metadata_time t)))
           (UploadFunction.s3_put_object w bucket_name s3_file_key file.2);
  _ ← emit [Print (FileUploaded s3_file_key)];
  _ ← emit (log_upload_metadata t s3_file_key file.1);
  mret {| statusCode := 200; body := Uploaded s3_file_key |}.

Definition upload_handler (w : UploadFunction.world) (t : table)
    (ev : UploadFunction.event) : list effect * response :=
  let m := upload_try w t ev in
  match m.2 with
  | inr r => (m.1, r)
  | inl e => (m.1 ++ [Print (HandlerError e)],
              {| statusCode := 500; body := Failure "Error: " e |})
  end.

(** The [try] block of [PollyFunction.lambda_handler]. *)
Definition polly_try (w : PollyFunction.world) (ev : PollyFunction.event)
  : traced response :=
  text ← lift (getitem "translated_text" (PollyFunction.translated_text ev));
  input_bucket_name ← lift (getitem "bucket" (PollyFunction.bucket ev));
  given_name ← lift (getitem "output_file" (PollyFunction.output_file ev));
  let output_file_name :=
    PollyFunction.or_else given_name
      (PollyFunction.uuid4 w ++ slit "_speech.mp3") in
  resp ← ([PollySynthesizeSpeech text "mp3" "Joanna"],
          PollyFunction.polly_synthesize_speech w text);
  match resp with
  | Some stream =>
      audio ← lift stream;
      _ ← call (S3PutObject PollyFunction.output_bucket_name output_file_name
                  audio "audio/mpeg" None)
               (PollyFunction.s3_put_object w PollyFunction.output_bucket_name
                  output_file_name audio);
      _ ← emit [Print (AudioSaved PollyFunction.output_bucket_name
                         output_file_name)];
      mret {| statusCode := 200;
              body := Saved PollyFunction.output_bucket_name output_file_name |}
  | None =>
      _ ← emit [Print NoAudioStream];
      mret {| statusCode := 500;
              body := Message "No AudioStream found in Polly response." |}
  end.

Definition polly_handler (w : PollyFunction.world) (ev : PollyFunction.event)
  : list effect * response :=
  let m := polly_try w ev in
  match m.2 with
  | inr r => (m.1, r)
  | inl (KeyError key) =>
      (m.1 ++ [Print (MissingKey (KeyError key))],
       {| statusCode := 400; body := Failure "Missing key: " (KeyError key) |})
  | inl e =>
      (m.1 ++ [Print (ErrorOccurred e)],
       {| statusCode := 500; body := Failure "An error occurred: " e |})
  end.

End Effects.

(** * Vocabulary of the statements *)

Section Occurrences.
Context {A : Type} `{EqDecision A}.

(** [sep] occurs somewhere in [s]. *)
Definition occurs (sep s : list A) : Prop := ∃ a b, s = a ++ sep ++ b.

(** In [p ++ sep] the separator occurs at the end and nowhere before:
    a scan of [p ++ sep ++ ...] meets its first separator right after
    [p]. *)
Definition first_at_end (sep p : list A) : Prop :=
  ∀ a b, p ++ sep = a ++ sep ++ b → b = [].

(** Executable versions, for concrete inputs. *)
Definition occursb (sep s : list A) : bool :=
  existsb (λ i, startswith sep (drop i s)) (seq 0 (S (length s))).

Definition first_at_endb (sep p : list A) : bool :=
  forallb (λ i, negb (startswith sep (drop i (p ++ sep)))) (seq 0 (length p)).

End Occurrences.

(** A multipart body: a preamble, then each part behind a delimiter, then
    the closing delimiter with what follows it ([--] and trailing bytes). *)
Definition multipart_body (delim preamble : bytes) (parts : list bytes)
    (closing : bytes) : bytes :=
  preamble ++ flat_map (λ p, delim ++ p) parts ++ delim ++ closing.

(** The delimiter occurs in the body exactly where the layout puts it. *)
Definition well_framed (delim preamble : bytes) (parts : list bytes)
    (closing : bytes) : Prop :=
  first_at_end delim preamble
  ∧ Forall (first_at_end delim) parts
  ∧ ¬ occurs delim closing.

(** The delimiter that a content type announces: two dashes and the UTF-8
    encoding of the token after [boundary=]. *)
Definition announces (content_type : str) (delim : bytes) : Prop :=
  ∃ token token_bytes,
    re_search_boundary content_type = Some token
    ∧ str_encode token = inr token_bytes
    ∧ delim = blit "--" ++ token_bytes.


(** The header text of a part whose Content-Disposition entry has the
    attributes of the pattern: some text, the entry with its name and,
    directly after it, the optional filename attribute, then more text. *)
Record part_layout := {
  before_cd : str;
  field_name : str;
  file_name : option str;
  after_cd : str;
}.

Definition filename_attr (f : option str) : str :=
  match f with
  | Some x => fn_prefix ++ x ++ [dquote]
  | None => []
  end.

Definition header_text (l : part_layout) : str :=
  before_cd l ++ cd_prefix ++ field_name l ++ [dquote]
  ++ filename_attr (file_name l) ++ after_cd l.

(** [s] is a non-empty quoted value. *)
Definition quotable (s : str) : Prop := s ≠ [] ∧ dquote ∉ s.

(** [s] does not begin with a filename attribute of a non-empty value. *)
Definition no_filename_attr (s : str) : Prop :=
  ∀ x r, s = fn_prefix ++ x ++ dquote :: r → ¬ quotable x.

Definition layout_ok (l : part_layout) : Prop :=
  first_at_end cd_prefix (before_cd l)
  ∧ quotable (field_name l)
  ∧ match file_name l with
    | Some x => quotable x
    | None => no_filename_attr (after_cd l)
    end.

(** Executable versions, for concrete inputs. *)
Definition quotableb (s : str) : bool :=
  match s with [] => false | _ :: _ => forallb (is_not dquote) s end.

Definition layout_okb (l : part_layout) : bool :=
  first_at_endb cd_prefix (before_cd l)
  && quotableb (field_name l)
  && match file_name l with
     | Some x => quotableb x
     | None => bool_decide (match_filename_at (after_cd l) = None)
     end.

(** [part] is a header block, the first blank line, and a payload. *)
Definition part_of (part header_block payload : bytes) : Prop :=
  part = header_block ++ blank_line ++ payload
  ∧ first_at_end blank_line header_block.

(** [part] is a well-formed part: its header block is the UTF-8 encoding
    of a header text laid out as [l], and [payload] follows the blank
    line. *)
Definition well_formed_part (part : bytes) (l : part_layout) (payload : bytes)
  : Prop :=
  ∃ header_block,
    part_of part header_block payload
    ∧ bytes_decode header_block = inr (header_text l)
    ∧ layout_ok l.

(** The headers of [part] match the Content-Disposition pattern, with
    [name] in its first group. *)
Definition disposition_name (part : bytes) (name : str) : Prop :=
  ∃ header_block payload text f,
    part_of part header_block payload
    ∧ bytes_decode header_block = inr text
    ∧ re_search_content_disposition text = Some (name, f).

(** The field value made of the layout [l] and the bytes [content]: a file
    record, or the text that [content] encodes. *)
Definition stored_value (l : part_layout) (content : bytes) (v : field_value)
  : Prop :=
  match file_name l with
  | Some x => v = FileField x content
  | None => ∃ value, bytes_decode content = inr value ∧ v = Plain value
  end.

(** The event carries [body] and [content_type] to the decoder. *)
Definition upload_request (w : UploadFunction.world) (ev : UploadFunction.event)
    (body : bytes) (content_type : str) : Prop :=
  ∃ text items,
    UploadFunction.ev_body ev = Some text
    ∧ str_encode text = inr body
    ∧ UploadFunction.ev_headers ev = Some items
    ∧ UploadFunction.lowercase_keys w items !! slit "content-type"
      = Some content_type
    ∧ content_type ≠ [].

(** The three ways in which an upload lacks a parameter: no boundary in
    the content type, no [file] field, a [file] field without content. *)
Definition missing_parameter (body : bytes) (content_type : str) : Prop :=
  ¬ occurs (slit "boundary=") content_type
  ∨ ∃ fields log,
      parse_multipart_form_data body content_type = inr (fields, log)
      ∧ (fields !! slit "file" = None
         ∨ ∃ name, fields !! slit "file" = Some (FileField name [])).

(** A key that the speech handler reads is absent from the event. *)
Definition missing_key (ev : PollyFunction.event) : Prop :=
  PollyFunction.translated_text ev = None
  ∨ PollyFunction.bucket ev = None
  ∨ PollyFunction.output_file ev = None.

Definition client_error (status : Z) : Prop := (400 ≤ status < 500)%Z.

Definition is_newline (b : byte) : Prop := b = CR ∨ b = LF.

(** The last item of [s], if there is one, is not a newline byte. *)
Definition no_trailing_newline (s : bytes) : Prop :=
  ∀ a c, s = a ++ [c] → ¬ is_newline c.

(** The same for text: the last code point is neither CR nor LF. *)
Definition no_trailing_newline_str (s : str) : Prop :=
  ∀ a c, s = a ++ [c] → c ≠ 13 ∧ c ≠ 10.

(** [s] ends with the sequence [suffix]. *)
Definition ends_with {A} (suffix s : list A) : Prop := ∃ a, s = a ++ suffix.

(** The key under which the upload handler stores a file. *)
Definition upload_key (w : UploadFunction.world) : str :=
  UploadFunction.strftime_now w ++ slit "_"
  ++ take 4 (UploadFunction.uuid4 w) ++ slit ".mp3".

(** The request passes every check that precedes the storage call: the
    decoder returns a dictionary, printing [log], whose [file] entry is a
    file record with a name and non-empty content, and the bucket is
    configured. *)
Definition upload_validated (w : UploadFunction.world)
    (ev : UploadFunction.event) (bucket fname : str) (content : bytes)
    (log : list exn) : Prop :=
  ∃ b ct fields,
    upload_request w ev b ct
    ∧ parse_multipart_form_data b ct = inr (fields, log)
    ∧ fields !! slit "file" = Some (FileField fname content)
    ∧ content ≠ []
    ∧ UploadFunction.environ_INPUT_BUCKET w = Some bucket.

(** The item that the upload handler writes for a stored file. *)
Definition upload_item (t : Effects.table) (key fname : str) : item :=
  {| file_key := key;
     original_filename := fname;
     status := "uploaded";
     upload_time := Effects.table_time t;
     stage := "upload" |}.

(** The name under which the speech handler stores the audio. *)
Definition speech_key (w : PollyFunction.world) (given : str) : str :=
  PollyFunction.or_else given (PollyFunction.uuid4 w ++ slit "_speech.mp3").

(** The event has the three keys that the speech handler reads. *)
Definition speech_request (ev : PollyFunction.event) (text bname given : str)
  : Prop :=
  PollyFunction.translated_text ev = Some text
  ∧ PollyFunction.bucket ev = Some bname
  ∧ PollyFunction.output_file ev = Some given.

(** Polly answers with an audio stream that reads as [audio]. *)
Definition speech_synthesized (w : PollyFunction.world) (text : str)
    (audio : bytes) : Prop :=
  PollyFunction.polly_synthesize_speech w text = inr (Some (inr audio)).

(** One of the calls of the speech handler raises [e]: the synthesis, the
    reading of the stream, or the storage of the audio. *)
Definition speech_call_raises (w : PollyFunction.world) (text given : str)
    (e : exn) : Prop :=
  PollyFunction.polly_synthesize_speech w text = inl e
  ∨ PollyFunction.polly_synthesize_speech w text = inr (Some (inl e))
  ∨ ∃ audio,
      speech_synthesized w text audio
      ∧ PollyFunction.s3_put_object w PollyFunction.output_bucket_name
          (speech_key w given) audio = Some e.

(** The answer of the speech handler to an exception that reaches its
    [except] clauses, and the line it prints. *)
Definition speech_failure (e : exn) : response :=
  match e with
  | KeyError key =>
      {| statusCode := 400; body := Failure "Missing key: " (KeyError key) |}
  | _ => {| statusCode := 500; body := Failure "An error occurred: " e |}
  end.

Definition speech_failure_line (e : exn) : printed :=
  match e with
  | KeyError key => MissingKey (KeyError key)
  | _ => ErrorOccurred e
  end.

(** The two calls of the speech handler. *)
Definition synthesize_call (text : str) : effect :=
  PollySynthesizeSpeech text "mp3" "Joanna".

Definition store_audio_call (w : PollyFunction.world) (given : str)
    (audio : bytes) : effect :=
  S3PutObject PollyFunction.output_bucket_name (speech_key w given) audio
    "audio/mpeg" None.

(** The calls to the services among the effects, without the printed
    lines. *)
Definition is_call (e : effect) : bool :=
  match e with Print _ => false | _ => true end.
Definition service_calls (es : list effect) : list effect := filter is_call es.

(** [part] is a well-formed part that carries [name] and the value [v]. *)
Definition part_entry (part : bytes) (name : str) (v : field_value) : Prop :=
  ∃ l payload,
    well_formed_part part l payload
    ∧ field_name l = name
    ∧ stored_value l (bytes_rstrip payload CRLF) v.

(** [sep.join(fragments)] *)
Fixpoint bytes_join (sep : bytes) (fragments : list bytes) : bytes :=
  match fragments with
  | [] => []
  | [f] => f
  | f :: fs => f ++ sep ++ bytes_join sep fs
  end.

(** The text that begins with [c] and goes on as [r], if [r] is text. *)
Definition text_after (c : N) (r : exn + str) : exn + str :=
  match r with inr s => inr (c :: s) | inl e => inl e end.

(** [y] is empty or begins with an ASCII byte. *)
Definition starts_ascii (y : bytes) : Prop :=
  match y with
  | [] => True
  | b :: _ => Byte.to_N b < 128
  end.

(** [bs] is valid UTF-8. *)
Definition utf8 (bs : bytes) : Prop := ∃ s, bytes_decode bs = inr s.

(** [part] cannot be read: it has no blank line, or its header block is
    not UTF-8, or it is a well-formed part without filename whose payload
    is not UTF-8. *)
Definition broken_part (part : bytes) : Prop :=
  ¬ occurs blank_line part
  ∨ (∃ header_block payload,
       part_of part header_block payload ∧ ¬ utf8 header_block)
  ∨ (∃ l payload,
       well_formed_part part l payload
       ∧ file_name l = None
       ∧ ¬ utf8 (bytes_rstrip payload CRLF)).

(** [part] has a header block that is text and in which the
    Content-Disposition literal does not occur. *)
Definition unnamed_part (part : bytes) : Prop :=
  ∃ header_block payload text,
    part_of part header_block payload
    ∧ bytes_decode header_block = inr text
    ∧ ¬ occurs cd_prefix text.

(** The pattern of the decoder holds at the place that [l] marks in its
    header text: the name is a non-empty run without quote, and so is the
    filename when [l] has one; when [l] has none, no filename attribute
    with such a value follows the name. *)
Definition pattern_holds (l : part_layout) : Prop :=
  quotable (field_name l)
  ∧ match file_name l with
    | Some x => quotable x
    | None => no_filename_attr (after_cd l)
    end.

(** [l] marks the leftmost place of its header text at which a
    Content-Disposition entry with a name begins: no layout of the same
    text has such an entry after a shorter beginning.  This is the match
    that a search from the left reports. *)
Definition leftmost_entry (l : part_layout) : Prop :=
  pattern_holds l
  ∧ ∀ l', header_text l' = header_text l → quotable (field_name l') →
          (length (before_cd l) ≤ length (before_cd l'))%nat.

(** The headers of [part] match the Content-Disposition pattern as [l]
    lays them out, and [payload] follows the first blank line. *)
Definition matching_part (part : bytes) (l : part_layout) (payload : bytes)
  : Prop :=
  ∃ header_block,
    part_of part header_block payload
    ∧ bytes_decode header_block = inr (header_text l)
    ∧ leftmost_entry l.

(** [part] carries the Content-Disposition name [name]. *)
Definition carries (part : bytes) (name : str) : Prop :=
  ∃ l payload, matching_part part l payload ∧ field_name l = name.


(** Every [boundary=] that begins in [a] is directly followed by a
    semicolon: the boundary pattern, which wants one character of a token
    at least, matches nowhere in [a ++ boundary=] before the end of [a]. *)
Definition no_token_before (a : str) : Prop :=
  ∀ x y, a ++ slit "boundary=" = x ++ slit "boundary=" ++ y →
         y = [] ∨ ∃ r, y = semicolon :: r.

(** Executable version, for concrete inputs. *)
Definition no_token_beforeb (a : str) : bool :=
  forallb (λ i, negb (startswith (slit "boundary=")
                        (drop i (a ++ slit "boundary=")))
                || match drop (i + length (slit "boundary="))
                              (a ++ slit "boundary=") with
                   | c :: _ => c =? semicolon
                   | [] => false
                   end)
          (seq 0 (length a)).

(** * Concrete inputs *)

(** A header block with one Content-Disposition line. *)
Definition cd_header (name : string) (filename : option string) : bytes :=
  CRLF ++ blit "Content-Disposition: form-data; name=" ++ [x22]
  ++ blit name ++ [x22]
  ++ match filename with
     | Some f => blit "; filename=" ++ [x22] ++ blit f ++ [x22]
     | None => []
     end.

Definition cd_layout (name : string) (filename : option string) : part_layout :=
  {| before_cd := [13; 10];
     field_name := slit name;
     file_name := option_map slit filename;
     after_cd := [] |}.

(** A part as a client sends it: the header block, the blank line, the
    content, and the line end that precedes the next delimiter. *)
Definition sent_part (header_block content : bytes) : bytes :=
  header_block ++ blank_line ++ content ++ CRLF.

Definition delim_B : bytes := blit "--B".
Definition closing_B : bytes := blit "--" ++ CRLF.

Definition part_mp3 : bytes :=
  sent_part (cd_header "file" (Some "a.mp3"%string)) (blit "ID3 data").
Definition part_note : bytes :=
  sent_part (cd_header "note" None) (blit "hello").
Definition part_note2 : bytes :=
  sent_part (cd_header "note" None) (blit "bye").
Definition part_other : bytes :=
  sent_part (CRLF ++ blit "Content-Type: text/plain") (blit "x").
Definition part_broken : bytes :=
  CRLF ++ blit "Content-Disposition: form-data; name=" ++ [x22]
  ++ blit "lost" ++ [x22] ++ CRLF ++ blit "no blank line" ++ CRLF.

(** A text file whose last byte is a line feed. *)
Definition content_nl : bytes := blit "hi" ++ [LF].
Definition part_txt : bytes :=
  sent_part (cd_header "file" (Some "a.txt"%string)) content_nl.
Definition body_txt : bytes :=
  multipart_body delim_B [] [part_txt] closing_B.

Definition ct_plain : str := slit "multipart/form-data".
Definition ct_B : str := slit "multipart/form-data; boundary=B".


(** An ASCII body as the text that the gateway hands over. *)
Definition text_of (b : bytes) : str := map Byte.to_N b.

(** [str.lower] on ASCII text. *)
Definition ascii_lower (s : str) : str :=
  map (λ c, if in_range 65 90 c then c + 32 else c) s.

Definition upload_world : UploadFunction.world :=
  {| UploadFunction.lower := ascii_lower;
     UploadFunction.environ_INPUT_BUCKET := Some (slit "input-bucket");
     UploadFunction.strftime_now := slit "20240101T000000Z";
     UploadFunction.uuid4 := slit "1b4e28ba-2fa1-11d2-883f-0016d3cca427";
     UploadFunction.s3_put_object := λ _ _ _, None |}.

Definition upload_event (b : bytes) (ct : str) : UploadFunction.event :=
  {| UploadFunction.ev_body := Some (text_of b);
     UploadFunction.ev_headers := Some [(slit "Content-Type", ct)] |}.

Definition body_empty_file : bytes :=
  multipart_body delim_B []
    [sent_part (cd_header "file" (Some "a.mp3"%string)) []] closing_B.

Definition body_no_file : bytes :=
  multipart_body delim_B [] [part_note] closing_B.

(** A text with characters of one, two and three bytes. *)
Definition text_euro : str := [104; 233; 108; 108; 111; 32; 0x20AC].
Definition bytes_euro : bytes :=
  [x68; xc3; xa9; x6c; x6c; x6f; x20; xe2; x82; xac].
Definition part_euro : bytes := sent_part (cd_header "note" None) bytes_euro.

(** A field whose payload is not UTF-8. *)
Definition part_latin1 : bytes := sent_part (cd_header "note" None) [x63; xe9].

Definition event_no_content_type : UploadFunction.event :=
  {| UploadFunction.ev_body := Some (text_of ex_body);
     UploadFunction.ev_headers := Some [(slit "Accept", slit "*/*")] |}.

Definition table_down : Effects.table :=
  {| Effects.s3_metadata_time := slit "2024-01-01T00:00:00+00:00";
     Effects.table_time := slit "2024-01-01T00:00:01+00:00";
     Effects.table_put_item := λ _, Some (ServiceError "table unavailable") |}.

Definition upload_world_s3_down : UploadFunction.world :=
  {| UploadFunction.lower := ascii_lower;
     UploadFunction.environ_INPUT_BUCKET := Some (slit "input-bucket");
     UploadFunction.strftime_now := slit "20240101T000000Z";
     UploadFunction.uuid4 := slit "1b4e28ba-2fa1-11d2-883f-0016d3cca427";
     UploadFunction.s3_put_object := λ _ _ _, Some (ServiceError "AccessDenied") |}.

Definition polly_world : PollyFunction.world :=
  {| PollyFunction.uuid4 := slit "1b4e28ba-2fa1-11d2-883f-0016d3cca427";
     PollyFunction.polly_synthesize_speech := λ _, inr (Some (inr (blit "audio")));
     PollyFunction.s3_put_object := λ _ _ _, None |}.

Definition polly_event_ok : PollyFunction.event :=
  {| PollyFunction.translated_text := Some (slit "hello");
     PollyFunction.bucket := Some (slit "in");
     PollyFunction.output_file := Some (slit "out.mp3") |}.

Definition polly_world_key_error : PollyFunction.world :=
  {| PollyFunction.uuid4 := slit "1b4e28ba-2fa1-11d2-883f-0016d3cca427";
     PollyFunction.polly_synthesize_speech := λ _, inl (KeyError "Engine");
     PollyFunction.s3_put_object := λ _ _ _, None |}.

Definition polly_event_no_bucket : PollyFunction.event :=
  {| PollyFunction.translated_text := Some (slit "hello");
     PollyFunction.bucket := None;
     PollyFunction.output_file := Some (slit "out.mp3") |}.

(** * Running the model on small inputs *)

Example ex_split :
  bytes_split (blit "--B one--B two--B--") (blit "--B")
  = inr [blit ""; blit " one"; blit " two"; blit "--"].
Proof. vm_compute. reflexivity. Qed.

Example ex_rstrip : bytes_rstrip [x61; x0a; x0d; x0d; x0a] [x0d; x0a] = [x61].
Proof. vm_compute. reflexivity. Qed.

Example ex_decode : bytes_decode [xe2; x82; xac; x41] = inr [0x20AC; 0x41].
Proof. vm_compute. reflexivity. Qed.

Example ex_encode : str_encode [0x20AC; 0x41; 0x1F600] = inr [xe2; x82; xac; x41; xf0; x9f; x98; x80].
Proof. vm_compute. reflexivity. Qed.

Example ex_spec :
  parse_multipart_form_data ex_body (slit "multipart/form-data; boundary=B")
  = inr ({[ slit "file" := FileField (slit "a.mp3") (blit "ID3 data") ]}, []).
Proof. vm_compute. reflexivity. Qed.

Example ex_no_boundary :
  parse_multipart_form_data ex_body (slit "multipart/form-data") = inl missing_boundary.
Proof. vm_compute. reflexivity. Qed.

Example ex_two_fields :
  parse_multipart_form_data
    (multipart_body delim_B [] [part_note; part_mp3] closing_B) ct_B
  = inr ({[ slit "note" := Plain (slit "hello");
            slit "file" := FileField (slit "a.mp3") (blit "ID3 data") ]}, []).
Proof. vm_compute. reflexivity. Qed.

Example ex_upload_ok :
  UploadFunction.lambda_handler upload_world (upload_event ex_body ct_B)
  = {| statusCode := 200;
       body := Uploaded (slit "20240101T000000Z_1b4e.mp3") |}.
Proof. vm_compute. reflexivity. Qed.

Example ex_upload_plain_file_field :
  UploadFunction.lambda_handler upload_world
    (upload_event
       (multipart_body delim_B []
          [sent_part (cd_header "file" None) (blit "x")] closing_B) ct_B)
  = {| statusCode := 500;
       body := Failure "Error: " (TypeError "string indices must be integers") |}.
Proof. vm_compute. reflexivity. Qed.

Example ex_polly_ok :
  PollyFunction.lambda_handler polly_world
    {| PollyFunction.translated_text := Some (slit "hello");
       PollyFunction.bucket := Some (slit "in");
       PollyFunction.output_file := Some [] |}
  = {| statusCode := 200;
       body := Saved PollyFunction.output_bucket_name
                 (slit "1b4e28ba-2fa1-11d2-883f-0016d3cca427_speech.mp3") |}.
Proof. vm_compute. reflexivity. Qed.

(** * Facts about the sequence primitives *)

Section SeqFacts.
Context {A : Type} `{EqDecision A}.
Implicit Types (s pre sep p k : list A).

Lemma startswith_app pre k : startswith pre (pre ++ k) = true.
Proof.
  induction pre as [|c pre IH]; simpl; [done|].
  rewrite bool_decide_eq_true_2 by done. exact IH.
Qed.

Lemma startswith_inv pre s : startswith pre s = true → ∃ k, s = pre ++ k.
Proof.
  revert s. induction pre as [|c pre IH]; intros s; simpl.
  - intros _. by exists s.
  - destruct s as [|d s]; [done|].
    intros [Hc Hs]%andb_prop. apply bool_decide_eq_true_1 in Hc as ->.
    destruct (IH _ Hs) as [k ->]. by exists k.
Qed.

Lemma strip_prefix_app pre k : strip_prefix pre (pre ++ k) = Some k.
Proof.
  induction pre as [|c pre IH]; simpl; [done|].
  rewrite bool_decide_eq_true_2 by done. exact IH.
Qed.

Lemma strip_prefix_inv pre s k : strip_prefix pre s = Some k → s = pre ++ k.
Proof.
  revert s. induction pre as [|c pre IH]; intros s; simpl.
  - by intros [= ->].
  - destruct s as [|d s]; [done|]. case_bool_decide; [|done].
    subst. intros Hs. by rewrite (IH _ Hs).
Qed.

Lemma strip_prefix_None pre s :
  startswith pre s = false → strip_prefix pre s = None.
Proof.
  intros Hs. destruct (strip_prefix pre s) as [k|] eqn:Hk; [|done].
  apply strip_prefix_inv in Hk as ->. by rewrite startswith_app in Hs.
Qed.

(** ** [span] *)

Lemma span_run (f : A → bool) run rest :
  Forall (λ c, f c = true) run →
  match rest with [] => True | c :: _ => f c = false end →
  span f (run ++ rest) = (run, rest).
Proof.
  intros Hrun Hrest. induction Hrun as [|c run Hc _ IH]; simpl.
  - destruct rest as [|c rest]; simpl; [done|]. by rewrite Hrest.
  - by rewrite Hc, IH.
Qed.

Lemma span_inv (f : A → bool) s run rest :
  span f s = (run, rest) →
  s = run ++ rest ∧ Forall (λ c, f c = true) run
  ∧ match rest with [] => True | c :: _ => f c = false end.
Proof.
  revert run rest. induction s as [|c s IH]; intros run rest; simpl.
  - intros [= <- <-]. by repeat split.
  - destruct (f c) eqn:Hc.
    + destruct (span f s) as [run' rest'] eqn:Hs. intros [= <- <-].
      destruct (IH _ _ eq_refl) as (-> & Hrun & Hrest).
      repeat split; [by constructor | done].
    + intros [= <- <-]. by repeat split.
Qed.

(** ** Occurrences *)

Lemma first_at_end_tail sep c p :
  first_at_end sep (c :: p) → first_at_end sep p.
Proof.
  intros Hp a b Hab. apply (Hp (c :: a) b). simpl. by rewrite Hab.
Qed.

Lemma first_at_end_no_start sep c p rest :
  first_at_end sep (c :: p) →
  startswith sep ((c :: p) ++ sep ++ rest) = false.
Proof.
  intros Hp. destruct (startswith _ _) eqn:Hs; [|done].
  apply startswith_inv in Hs as [k Hk].
  assert (∃ b, (c :: p) ++ sep = sep ++ b) as [b Hb].
  { rewrite (assoc_L (++)) in Hk. symmetry in Hk.
    apply app_eq_inv in Hk as [(k' & Hk' & _)|(k' & Hk' & _)].
    - exfalso. apply (f_equal length) in Hk'.
      rewrite !length_app in Hk'. simpl in Hk'. lia.
    - by exists k'. }
  assert (b = []) as ->.
  { apply (Hp [] b). exact Hb. }
  apply (f_equal length) in Hb. rewrite !length_app in Hb. simpl in Hb. lia.
Qed.

Lemma not_occurs_tail sep c s : ¬ occurs sep (c :: s) → ¬ occurs sep s.
Proof. intros Hn (a & b & ->). apply Hn. by exists (c :: a), b. Qed.

Lemma not_occurs_no_start sep s : ¬ occurs sep s → startswith sep s = false.
Proof.
  intros Hn. destruct (startswith sep s) eqn:Hs; [|done].
  apply startswith_inv in Hs as [k ->]. exfalso. apply Hn. by exists [], k.
Qed.

Lemma first_at_endb_sound sep p :
  first_at_endb sep p = true → first_at_end sep p.
Proof.
  unfold first_at_endb. intros Hall a b Hab.
  destruct b as [|x b]; [done|]. exfalso.
  rewrite forallb_forall in Hall.
  assert (length a < length p)%nat as Hlt.
  { apply (f_equal length) in Hab. rewrite !length_app in Hab.
    simpl in Hab. lia. }
  specialize (Hall (length a)).
  rewrite Hab, drop_app_length, startswith_app in Hall.
  assert (negb true = true) as Hf; [|done].
  apply Hall, in_seq. lia.
Qed.

Lemma occursb_complete sep s : occurs sep s → occursb sep s = true.
Proof.
  intros (a & b & ->). unfold occursb. apply existsb_exists.
  exists (length a). split.
  - apply in_seq. rewrite length_app. lia.
  - by rewrite drop_app_length, startswith_app.
Qed.


Lemma occursb_false sep s : occursb sep s = false → ¬ occurs sep s.
Proof. intros Hf Ho. apply occursb_complete in Ho. congruence. Qed.

(** ** [split_first] *)

Lemma split_first_at sep p rest :
  first_at_end sep p → split_first sep (p ++ sep ++ rest) = Some (p, rest).
Proof.
  induction p as [|c p IH]; intros Hp.
  - simpl. destruct (sep ++ rest) eqn:Hsr.
    + simpl. destruct sep; [|done]. simpl in *. by subst.
    + rewrite <- Hsr.
      assert (split_first sep (sep ++ rest)
              = if startswith sep (sep ++ rest)
                then Some ([], drop (length sep) (sep ++ rest))
                else None) as ->.
      { rewrite Hsr. simpl. rewrite <- Hsr, startswith_app. done. }
      by rewrite startswith_app, drop_app_length.
  - change (split_first sep ((c :: p) ++ sep ++ rest))
      with (if startswith sep ((c :: p) ++ sep ++ rest)
            then Some ([], drop (length sep) ((c :: p) ++ sep ++ rest))
            else match split_first sep (p ++ sep ++ rest) with
                 | Some (before, after) => Some (c :: before, after)
                 | None => None
                 end).
    rewrite (first_at_end_no_start _ _ _ _ Hp).
    by rewrite (IH (first_at_end_tail _ _ _ Hp)).
Qed.

Lemma split_first_none sep s : ¬ occurs sep s → split_first sep s = None.
Proof.
  induction s as [|c s IH]; intros Hn.
  - simpl. by rewrite (not_occurs_no_start _ _ Hn).
  - change (split_first sep (c :: s))
      with (if startswith sep (c :: s)
            then Some ([], drop (length sep) (c :: s))
            else match split_first sep s with
                 | Some (before, after) => Some (c :: before, after)
                 | None => None
                 end).
    rewrite (not_occurs_no_start _ _ Hn).
    by rewrite (IH (not_occurs_tail _ _ _ Hn)).
Qed.

Lemma first_at_end_nil sep : first_at_end sep [].
Proof.
  intros a b Hab. apply (f_equal length) in Hab.
  rewrite !length_app in Hab. simpl in Hab.
  destruct b; [done | simpl in Hab; lia].
Qed.

Lemma first_at_end_cons sep c p rest :
  startswith sep ((c :: p) ++ sep ++ rest) = false →
  first_at_end sep p → first_at_end sep (c :: p).
Proof.
  intros Hs Hp a b Hab. destruct a as [|x a].
  - destruct b as [|y b]; [done|]. exfalso.
    rewrite (assoc_L (++)), Hab in Hs. simpl in Hs.
    by rewrite <- (assoc_L (++)), startswith_app in Hs.
  - simpl in Hab. injection Hab as _ Hab. by apply (Hp a b).
Qed.

Lemma split_first_inv sep s before after :
  split_first sep s = Some (before, after) →
  s = before ++ sep ++ after ∧ first_at_end sep before.
Proof.
  revert before. induction s as [|c s IH]; intros before.
  - simpl. destruct (startswith sep []) eqn:Hs; [|done].
    intros [= <- <-]. apply startswith_inv in Hs as [k Hk].
    symmetry in Hk. apply app_eq_nil in Hk as [-> ->].
    split; [done | apply first_at_end_nil].
  - change (split_first sep (c :: s))
      with (if startswith sep (c :: s)
            then Some ([], drop (length sep) (c :: s))
            else match split_first sep s with
                 | Some (before, after) => Some (c :: before, after)
                 | None => None
                 end).
    destruct (startswith sep (c :: s)) eqn:Hs.
    + intros [= <- <-]. apply startswith_inv in Hs as [k ->].
      rewrite drop_app_length. split; [done | apply first_at_end_nil].
    + destruct (split_first sep s) as [[b' a']|] eqn:Hrec; [|done].
      intros [= <- <-]. destruct (IH _ eq_refl) as [-> Hb'].
      split; [done|]. by apply (first_at_end_cons _ _ _ a').
Qed.

(** ** [split_from] *)

Lemma split_from_skip sep x rest :
  split_from sep (x ++ rest) (length x) = split_from sep rest 0.
Proof. induction x as [|c x IH]; simpl; [by destruct rest | exact IH]. Qed.

Lemma split_from_at sep p rest :
  sep ≠ [] → first_at_end sep p →
  split_from sep (p ++ sep ++ rest) 0
  = (p, let (f, fs) := split_from sep rest 0 in f :: fs).
Proof.
  intros Hsep. induction p as [|c p IH]; intros Hp.
  - destruct sep as [|d sep]; [done|].
    change (split_from (d :: sep) ([] ++ (d :: sep) ++ rest) 0)
      with (if startswith (d :: sep) ((d :: sep) ++ rest)
            then ([], let (f, fs) :=
                        split_from (d :: sep) (sep ++ rest)
                                   (length (d :: sep) - 1) in f :: fs)
            else let (f, fs) := split_from (d :: sep) (sep ++ rest) 0 in
                 (d :: f, fs)).
    rewrite startswith_app.
    replace (length (d :: sep) - 1)%nat with (length sep) by (simpl; lia).
    by rewrite split_from_skip.
  - change (split_from sep ((c :: p) ++ sep ++ rest) 0)
      with (if startswith sep ((c :: p) ++ sep ++ rest)
            then ([], let (f, fs) :=
                        split_from sep (p ++ sep ++ rest) (length sep - 1)
                      in f :: fs)
            else let (f, fs) := split_from sep (p ++ sep ++ rest) 0 in
                 (c :: f, fs)).
    rewrite (first_at_end_no_start _ _ _ _ Hp).
    by rewrite (IH (first_at_end_tail _ _ _ Hp)).
Qed.

Lemma split_from_none sep s : ¬ occurs sep s → split_from sep s 0 = (s, []).
Proof.
  induction s as [|c s IH]; intros Hn; [done|].
  change (split_from sep (c :: s) 0)
    with (if startswith sep (c :: s)
          then ([], let (f, fs) := split_from sep s (length sep - 1)
                    in f :: fs)
          else let (f, fs) := split_from sep s 0 in (c :: f, fs)).
  rewrite (not_occurs_no_start _ _ Hn).
  by rewrite (IH (not_occurs_tail _ _ _ Hn)).
Qed.

(** ** [dropwhile] *)

Lemma dropwhile_all (f : A → bool) run rest :
  Forall (λ c, f c = true) run → dropwhile f (run ++ rest) = dropwhile f rest.
Proof. induction 1 as [|c run Hc _ IH]; simpl; [done | by rewrite Hc]. Qed.

Lemma dropwhile_head (f : A → bool) s :
  match dropwhile f s with [] => True | c :: _ => f c = false end.
Proof.
  induction s as [|c s IH]; simpl; [done|].
  destruct (f c) eqn:Hc; [exact IH | exact Hc].
Qed.

Lemma dropwhile_split (f : A → bool) s :
  ∃ run, s = run ++ dropwhile f s ∧ Forall (λ c, f c = true) run.
Proof.
  induction s as [|c s (run & Hs & Hrun)]; simpl; [by exists []|].
  destruct (f c) eqn:Hc.
  - exists (c :: run). split; [by rewrite Hs at 1 | by constructor].
  - by exists [].
Qed.

Lemma dropwhile_stop (f : A → bool) c s :
  f c = false → dropwhile f (c :: s) = c :: s.
Proof. intros Hc. simpl. by rewrite Hc. Qed.
End SeqFacts.

(** * The boundary scan *)

Lemma re_search_boundary_cons c s :
  re_search_boundary (c :: s)
  = match match_boundary_at (c :: s) with
    | Some tok => Some tok
    | None => re_search_boundary s
    end.
Proof. reflexivity. Qed.

Lemma re_search_boundary_unfold s :
  re_search_boundary s
  = match match_boundary_at s with
    | Some tok => Some tok
    | None => match s with [] => None | _ :: s' => re_search_boundary s' end
    end.
Proof. by destruct s. Qed.

Lemma match_boundary_at_inv s tok :
  match_boundary_at s = Some tok →
  ∃ rest, s = slit "boundary=" ++ tok ++ rest ∧ tok ≠ [].
Proof.
  unfold match_boundary_at.
  destruct (strip_prefix _ s) as [after|] eqn:Hp; [|done].
  apply strip_prefix_inv in Hp as ->.
  destruct (span (is_not semicolon) after) as [run rest] eqn:Hspan.
  apply span_inv in Hspan as (-> & _ & _). simpl.
  destruct run as [|c run]; [done|]. intros [= <-]. by exists rest.
Qed.

Lemma re_search_boundary_inv s tok :
  re_search_boundary s = Some tok →
  ∃ a b, s = a ++ slit "boundary=" ++ tok ++ b ∧ tok ≠ [].
Proof.
  induction s as [|c s IH]; [done|].
  rewrite re_search_boundary_cons.
  destruct (match_boundary_at (c :: s)) eqn:Hm.
  - intros [= ->]. apply match_boundary_at_inv in Hm as (rest & ? & ?).
    by exists [], rest.
  - intros (a & b & -> & ?)%IH. by exists (c :: a), b.
Qed.



(** No occurrence of the text [boundary=], no match. *)
Lemma re_search_boundary_absent s :
  ¬ occurs (slit "boundary=") s → re_search_boundary s = None.
Proof.
  intros Hn. destruct (re_search_boundary s) as [tok|] eqn:Hs; [|done].
  apply re_search_boundary_inv in Hs as (a & b & -> & _).
  exfalso. apply Hn. by exists a, (tok ++ b).
Qed.

(** * Encoding *)



(** * Splitting a framed body *)

Lemma multipart_body_fragments delim pre ps closing :
  multipart_body delim pre ps closing
  = flat_map (λ p, p ++ delim) (pre :: ps) ++ closing.
Proof.
  unfold multipart_body. revert pre.
  induction ps as [|p ps IH]; intros pre; simpl.
  - by rewrite app_nil_r, <- (assoc_L (++)).
  - rewrite <- !(assoc_L (++)). do 2 f_equal.
    rewrite (IH p). simpl. by rewrite <- !(assoc_L (++)).
Qed.

Lemma split_from_fragments (delim : bytes) (fr : list bytes) (closing : bytes) :
  delim ≠ [] → Forall (first_at_end delim) fr → ¬ occurs delim closing →
  (let (f, fs) := split_from delim (flat_map (λ p, p ++ delim) fr ++ closing) 0
   in f :: fs) = fr ++ [closing].
Proof.
  intros Hd Hfr Hc. induction Hfr as [|p fr Hp _ IH]; simpl.
  - by rewrite split_from_none.
  - rewrite <- !(assoc_L (++)). rewrite split_from_at by done.
    by rewrite IH.
Qed.

Lemma bytes_split_framed delim pre ps closing :
  delim ≠ [] → well_framed delim pre ps closing →
  bytes_split (multipart_body delim pre ps closing) delim
  = inr (pre :: ps ++ [closing]).
Proof.
  intros Hd (Hpre & Hps & Hc). unfold bytes_split.
  destruct delim as [|d delim]; [done|].
  rewrite multipart_body_fragments.
  rewrite split_from_fragments by (done || by constructor). done.
Qed.

Lemma slice_1_m1_framed {A} (pre : A) ps closing :
  slice_1_m1 (pre :: ps ++ [closing]) = ps.
Proof. unfold slice_1_m1. simpl. apply removelast_last. Qed.

Lemma announces_nonempty ct delim : announces ct delim → delim ≠ [].
Proof. by intros (tok & tb & _ & _ & ->). Qed.

(** The decoder on a framed body runs the loop over the parts. *)
Lemma decode_framed ct delim pre ps closing :
  announces ct delim → well_framed delim pre ps closing →
  parse_multipart_form_data (multipart_body delim pre ps closing) ct
  = inr (foldl loop_step (∅, []) ps).
Proof.
  intros Hann Hfr. pose proof (announces_nonempty _ _ Hann) as Hd.
  destruct Hann as (tok & tb & Htok & Htb & ->).
  unfold parse_multipart_form_data. rewrite Htok, Htb.
  rewrite bytes_split_framed by done. by rewrite slice_1_m1_framed.
Qed.

(** * The Content-Disposition scan *)

Lemma is_not_true c x : is_not c x = true ↔ x ≠ c.
Proof.
  unfold is_not. rewrite negb_true_iff, N.eqb_neq. done.
Qed.

Lemma is_not_false c x : is_not c x = false ↔ x = c.
Proof.
  unfold is_not. rewrite negb_false_iff, N.eqb_eq. done.
Qed.

Lemma quoted_run_at x r : quotable x → quoted_run (x ++ dquote :: r) = Some (x, r).
Proof.
  intros [Hne Hq]. unfold quoted_run.
  rewrite (span_run _ x (dquote :: r)).
  - by destruct x.
  - apply Forall_forall. intros c Hc. apply is_not_true. by intros ->.
  - by apply is_not_false.
Qed.

Lemma quoted_run_inv s x r :
  quoted_run s = Some (x, r) → s = x ++ dquote :: r ∧ quotable x.
Proof.
  unfold quoted_run.
  destruct (span (is_not dquote) s) as [run rest] eqn:Hspan.
  apply span_inv in Hspan as (-> & Hrun & Hrest).
  destruct run as [|c run]; [done|]. destruct rest as [|q rest]; [done|].
  intros [= <- <-]. apply is_not_false in Hrest as ->.
  repeat split; [done|].
  intros Hin. rewrite Forall_forall in Hrun.
  specialize (Hrun _ Hin). by apply is_not_true in Hrun.
Qed.

Lemma match_filename_at_attr x r :
  quotable x → match_filename_at (fn_prefix ++ x ++ dquote :: r) = Some x.
Proof.
  intros Hx. unfold match_filename_at.
  by rewrite strip_prefix_app, quoted_run_at.
Qed.

Lemma match_filename_at_inv s x :
  match_filename_at s = Some x →
  ∃ r, s = fn_prefix ++ x ++ dquote :: r ∧ quotable x.
Proof.
  unfold match_filename_at.
  destruct (strip_prefix fn_prefix s) as [s'|] eqn:Hp; [|done].
  apply strip_prefix_inv in Hp as ->.
  destruct (quoted_run s') as [[run rest]|] eqn:Hq; [|done].
  apply quoted_run_inv in Hq as [-> Hq]. intros [= <-]. by exists rest.
Qed.

Lemma match_filename_at_none s :
  no_filename_attr s → match_filename_at s = None.
Proof.
  intros Hs. destruct (match_filename_at s) as [x|] eqn:Hm; [|done].
  apply match_filename_at_inv in Hm as (r & -> & Hx).
  by destruct (Hs x r).
Qed.

Lemma match_filename_at_layout l :
  layout_ok l →
  match_filename_at (filename_attr (file_name l) ++ after_cd l) = file_name l.
Proof.
  intros (_ & _ & Hf). destruct (file_name l) as [x|]; simpl.
  - rewrite <- !(assoc_L (++)). by apply match_filename_at_attr.
  - by apply match_filename_at_none.
Qed.

Lemma re_search_content_disposition_unfold s :
  re_search_content_disposition s
  = match match_content_disposition_at s with
    | Some groups => Some groups
    | None =>
        match s with
        | [] => None
        | _ :: s' => re_search_content_disposition s'
        end
    end.
Proof. by destruct s. Qed.

(** The leftmost occurrence of the literal decides the search when the
    pattern matches there. *)
Lemma re_search_content_disposition_at before rest groups :
  first_at_end cd_prefix before →
  match_content_disposition_at (cd_prefix ++ rest) = Some groups →
  re_search_content_disposition (before ++ cd_prefix ++ rest) = Some groups.
Proof.
  intros Hb Hm. induction before as [|c before IH].
  - by rewrite app_nil_l, re_search_content_disposition_unfold, Hm.
  - rewrite re_search_content_disposition_unfold.
    unfold match_content_disposition_at at 1.
    rewrite strip_prefix_None by by apply first_at_end_no_start.
    simpl. apply IH. by eapply first_at_end_tail.
Qed.

Lemma re_search_content_disposition_layout l :
  layout_ok l →
  re_search_content_disposition (header_text l)
  = Some (field_name l, file_name l).
Proof.
  intros Hl. pose proof Hl as (Hb & Hn & _). unfold header_text.
  apply re_search_content_disposition_at; [done|].
  unfold match_content_disposition_at. rewrite strip_prefix_app.
  change (field_name l ++ [dquote] ++ ?x) with (field_name l ++ dquote :: x).
  rewrite quoted_run_at by done. by rewrite match_filename_at_layout.
Qed.

(** Every occurrence of the literal is followed at once by a closing
    quote: no position has a match. *)
Lemma re_search_content_disposition_empty_names s :
  (∀ a b, s = a ++ cd_prefix ++ b → ∃ r, b = dquote :: r) →
  re_search_content_disposition s = None.
Proof.
  induction s as [|c s IH]; intros Hs.
  - done.
  - rewrite re_search_content_disposition_unfold.
    assert (match_content_disposition_at (c :: s) = None) as ->.
    { unfold match_content_disposition_at.
      destruct (strip_prefix cd_prefix (c :: s)) as [s1|] eqn:Hp; [|done].
      apply strip_prefix_inv in Hp.
      destruct (Hs [] s1 Hp) as [r ->]. done. }
    apply IH. intros a b ->. apply (Hs (c :: a) b). done.
Qed.

(** * One part *)

Lemma parse_part_no_blank_line part :
  ¬ occurs blank_line part → parse_part part = Caught unpack_error.
Proof.
  intros Hn. unfold parse_part, bytes_split1.
  by rewrite split_first_none.
Qed.

Lemma bytes_split1_part part header_block payload :
  part_of part header_block payload →
  bytes_split1 part blank_line = [header_block; payload].
Proof.
  intros [-> Hh]. unfold bytes_split1. by rewrite split_first_at.
Qed.

Lemma truthy_quotable x : quotable x → truthy (Some x) = true.
Proof. intros [Hne _]. by destruct x. Qed.

(** What the loop body does with a well-formed part. *)
Lemma parse_part_well_formed part l payload :
  well_formed_part part l payload →
  parse_part part
  = match file_name l with
    | Some x => Store (field_name l) (FileField x (bytes_rstrip payload CRLF))
    | None =>
        match bytes_decode (bytes_rstrip payload CRLF) with
        | inl e => Caught e
        | inr value => Store (field_name l) (Plain value)
        end
    end.
Proof.
  intros (hb & Hpart & Hdec & Hl). unfold parse_part.
  rewrite (bytes_split1_part _ _ _ Hpart), Hdec.
  rewrite re_search_content_disposition_layout by done.
  destruct Hl as (_ & _ & Hf).
  destruct (file_name l) as [x|]; [by rewrite truthy_quotable | done].
Qed.

(** * Removing trailing newline bytes *)

Lemma in_CRLF c : bool_decide (c ∈ CRLF) = true ↔ is_newline c.
Proof.
  rewrite bool_decide_eq_true. unfold CRLF, is_newline.
  rewrite !elem_of_cons, elem_of_nil. tauto.
Qed.

Lemma bytes_rstrip_newlines core nl :
  Forall is_newline nl →
  bytes_rstrip (core ++ nl) CRLF = bytes_rstrip core CRLF.
Proof.
  intros Hnl. unfold bytes_rstrip. rewrite rev_app_distr.
  rewrite dropwhile_all; [done|].
  apply Forall_forall. intros c Hc. apply in_CRLF.
  rewrite Forall_forall in Hnl. apply Hnl.
  by apply list_elem_of_In, in_rev, list_elem_of_In.
Qed.

Lemma bytes_rstrip_no_trailing s : no_trailing_newline (bytes_rstrip s CRLF).
Proof.
  unfold bytes_rstrip. intros a c Ha.
  pose proof (dropwhile_head (λ c, bool_decide (c ∈ CRLF)) (rev s)) as Hh.
  apply (f_equal (@rev byte)) in Ha.
  rewrite rev_involutive, rev_app_distr in Ha. simpl in Ha.
  rewrite Ha in Hh. intros Hc%in_CRLF. congruence.
Qed.

Lemma bytes_rstrip_id s : no_trailing_newline s → bytes_rstrip s CRLF = s.
Proof.
  intros Hs. unfold bytes_rstrip.
  destruct (rev s) as [|c r] eqn:Hr.
  - simpl. apply (f_equal (@rev byte)) in Hr.
    by rewrite rev_involutive in Hr.
  - rewrite dropwhile_stop.
    + by rewrite <- Hr, rev_involutive.
    + apply not_true_is_false. intros Hc%in_CRLF.
      apply (Hs (rev r) c); [|done].
      apply (f_equal (@rev byte)) in Hr.
      by rewrite rev_involutive in Hr.
Qed.

(** Everything that is cut off is a newline byte. *)
Lemma bytes_rstrip_cut s :
  ∃ nl, s = bytes_rstrip s CRLF ++ nl ∧ Forall is_newline nl.
Proof.
  unfold bytes_rstrip.
  destruct (dropwhile_split (λ c, bool_decide (c ∈ CRLF)) (rev s))
    as (run & Hs & Hrun).
  exists (rev run). split.
  - rewrite <- rev_app_distr, <- Hs. by rewrite rev_involutive.
  - apply Forall_forall. intros c Hc. apply in_CRLF.
    rewrite Forall_forall in Hrun. apply Hrun.
    by apply list_elem_of_In, in_rev, list_elem_of_In in Hc.
Qed.

Lemma no_trailing_newline_ends s :
  no_trailing_newline s → ¬ ends_with CRLF s.
Proof.
  intros Hs [a ->]. apply (Hs (a ++ [CR]) LF).
  - by rewrite <- (assoc_L (++)).
  - by right.
Qed.

(** * Decoding UTF-8 *)

Lemma byte_of_to_N b : byte_of_N (Byte.to_N b) = b.
Proof. unfold byte_of_N. by rewrite Byte.of_to_N. Qed.

Lemma bytes_decode_nil b : bytes_decode b = inr [] → b = [].
Proof.
  destruct b as [|b0 r0]; [done|]. simpl.
  repeat case_match; congruence.
Qed.

(** The first code point comes from a first group of bytes, which is one
    byte of the same value when the code point is below 128. *)
Lemma bytes_decode_cons b c s :
  bytes_decode b = inr (c :: s) →
  ∃ hd tl, b = hd ++ tl ∧ bytes_decode tl = inr s
           ∧ (c < 128 → hd = [byte_of_N c]).
Proof.
  destruct b as [|b0 r0]; [done|]. simpl.
  destruct (Byte.to_N b0 <? 128) eqn:H1.
  { destruct (bytes_decode r0) as [|s0] eqn:Hr; [done|]. intros [= <- <-].
    exists [b0], r0. by rewrite byte_of_to_N. }
  apply N.ltb_ge in H1.
  destruct (Byte.to_N b0 <? 194) eqn:H2; [done|]. apply N.ltb_ge in H2.
  destruct (Byte.to_N b0 <? 224) eqn:H3.
  { destruct r0 as [|b1 r1]; [done|].
    destruct (in_range 128 191 (Byte.to_N b1)) eqn:Hx1; [|done].
    destruct (bytes_decode r1) as [|s1] eqn:Hr; [done|]. intros [= <- <-].
    exists [b0; b1], r1. repeat split; [done|]. lia. }
  apply N.ltb_ge in H3.
  destruct (Byte.to_N b0 <? 240) eqn:H4.
  { destruct r0 as [|b1 [|b2 r2]]; [done..|].
    destruct (in_range _ _ (Byte.to_N b1) && _) eqn:Hx; [|done].
    destruct (bytes_decode r2) as [|s2] eqn:Hr; [done|]. intros [= <- <-].
    exists [b0; b1; b2], r2. repeat split; [done|].
    apply andb_prop in Hx as [[Hlo _]%andb_prop _].
    destruct (Byte.to_N b0 =? 224) eqn:He;
      [apply N.eqb_eq in He | apply N.eqb_neq in He];
      apply N.leb_le in Hlo; lia. }
  apply N.ltb_ge in H4.
  destruct (Byte.to_N b0 <? 245) eqn:H5; [|done].
  destruct r0 as [|b1 [|b2 [|b3 r3]]]; [done..|].
  destruct (in_range _ _ (Byte.to_N b1) && _ && _) eqn:Hx; [|done].
  destruct (bytes_decode r3) as [|s3] eqn:Hr; [done|]. intros [= <- <-].
  exists [b0; b1; b2; b3], r3. repeat split; [done|].
  apply andb_prop in Hx as [[[Hlo _]%andb_prop _]%andb_prop _].
  destruct (Byte.to_N b0 =? 240) eqn:He;
    [apply N.eqb_eq in He | apply N.eqb_neq in He];
    apply N.leb_le in Hlo; lia.
Qed.

(** Text that ends in a code point below 128 was decoded from bytes that
    end in the byte of that value. *)
Lemma bytes_decode_last b a c :
  bytes_decode b = inr (a ++ [c]) → c < 128 → ∃ b', b = b' ++ [byte_of_N c].
Proof.
  intros Hb Hc. revert b Hb. induction a as [|x a IH]; intros b Hb.
  - apply bytes_decode_cons in Hb as (hd & tl & -> & Htl & Hhd).
    apply bytes_decode_nil in Htl as ->. rewrite (Hhd Hc). by exists [].
  - apply bytes_decode_cons in Hb as (hd & tl & -> & Htl & _).
    destruct (IH _ Htl) as [b' ->]. exists (hd ++ b').
    by rewrite <- (assoc_L (++)).
Qed.

Lemma bytes_decode_no_trailing b s :
  bytes_decode b = inr s → no_trailing_newline b → no_trailing_newline_str s.
Proof.
  intros Hb Hn a c ->.
  assert (c = 13 ∨ c = 10 → False) as Hc; [|lia].
  intros Hc.
  destruct (bytes_decode_last b a c Hb) as [b' ->]; [lia|].
  apply (Hn b' (byte_of_N c)); [done|].
  destruct Hc as [-> | ->]; [by left | by right].
Qed.

(** * The loop over the parts *)


Lemma loop_is_Some st ps k :
  is_Some ((foldl loop_step st ps).1 !! k)
  ↔ is_Some (st.1 !! k) ∨ ∃ p v, p ∈ ps ∧ parse_part p = Store k v.
Proof.
  revert st. induction ps as [|p ps IH]; intros st; simpl.
  - split; [by left|]. intros [?|(p & v & Hp & _)]; [done|].
    by apply elem_of_nil in Hp.
  - rewrite IH. unfold loop_step at 1.
    destruct (parse_part p) as [name v| |e] eqn:Hp; simpl.
    + rewrite lookup_insert_is_Some. split.
      * intros [[-> | [_ ?]] | (q & w & Hq & Hw)].
        -- right. exists p, v. split; [left|done].
        -- by left.
        -- right. exists q, w. split; [by right|done].
      * intros [? | (q & w & Hq & Hw)].
        -- left. destruct (decide (name = k)); [by left | by right].
        -- apply elem_of_cons in Hq as [-> | Hq].
           ++ left. left. congruence.
           ++ right. by exists q, w.
    + split.
      * intros [? | (q & w & Hq & Hw)]; [by left|].
        right. exists q, w. split; [by right|done].
      * intros [? | (q & w & Hq & Hw)]; [by left|].
        apply elem_of_cons in Hq as [-> | Hq]; [congruence|].
        right. by exists q, w.
    + split.
      * intros [? | (q & w & Hq & Hw)]; [by left|].
        right. exists q, w. split; [by right|done].
      * intros [? | (q & w & Hq & Hw)]; [by left|].
        apply elem_of_cons in Hq as [-> | Hq]; [congruence|].
        right. by exists q, w.
Qed.

(** Parts that do not store under [k] leave the entry of [k] alone. *)
Lemma loop_untouched st ps k :
  (∀ q v, q ∈ ps → parse_part q ≠ Store k v) →
  (foldl loop_step st ps).1 !! k = st.1 !! k.
Proof.
  revert st. induction ps as [|p ps IH]; intros st Hps; simpl; [done|].
  rewrite IH by (intros q v Hq; apply Hps; by right).
  unfold loop_step. destruct (parse_part p) as [name v| |e] eqn:Hp; simpl;
    [|done..].
  apply lookup_insert_ne. intros ->. apply (Hps p v); [by left|done].
Qed.

Lemma loop_last_wins st ps1 p ps2 k v :
  parse_part p = Store k v →
  (∀ q w, q ∈ ps2 → parse_part q ≠ Store k w) →
  (foldl loop_step st (ps1 ++ p :: ps2)).1 !! k = Some v.
Proof.
  intros Hp Hps2. rewrite foldl_app. simpl.
  rewrite loop_untouched by done.
  unfold loop_step. rewrite Hp. simpl. apply lookup_insert_eq.
Qed.

Lemma loop_invariant (P : str → field_value → Prop) st ps :
  (∀ p k v, parse_part p = Store k v → P k v) →
  map_Forall P st.1 → map_Forall P (foldl loop_step st ps).1.
Proof.
  intros HP. revert st. induction ps as [|p ps IH]; intros st Hst; simpl;
    [done|].
  apply IH. unfold loop_step.
  destruct (parse_part p) as [name v| |e] eqn:Hp; simpl; [|done..].
  apply map_Forall_insert_2; [by eapply HP | done].
Qed.

(** A part that raises leaves the dictionary as it was and adds one line
    to the output. *)
Lemma loop_step_caught st part e :
  parse_part part = Caught e → loop_step st part = (st.1, st.2 ++ [e]).
Proof. intros Hp. unfold loop_step. by rewrite Hp. Qed.


Lemma loop_step_continue st part :
  parse_part part = Continue → loop_step st part = st.
Proof. intros Hp. unfold loop_step. by rewrite Hp. Qed.

(** No field value that the loop body stores ends in a newline. *)
Lemma parse_part_no_trailing part k v :
  parse_part part = Store k v →
  match v with
  | Plain value => no_trailing_newline_str value
  | FileField _ content => no_trailing_newline content
  end.
Proof.
  unfold parse_part.
  destruct (bytes_split1 part blank_line) as [|h [|b [|? ?]]]; try done.
  destruct (bytes_decode h) as [|text]; [done|].
  destruct (re_search_content_disposition text) as [[name f]|]; [|done].
  destruct (truthy f).
  - intros [= <- <-]. apply bytes_rstrip_no_trailing.
  - destruct (bytes_decode (bytes_rstrip b CRLF)) as [|value] eqn:Hv; [done|].
    intros [= <- <-]. eapply bytes_decode_no_trailing; [done|].
    apply bytes_rstrip_no_trailing.
Qed.

(** * The decoder and the boundary parameter *)

Lemma missing_boundary_raises body content_type :
  ¬ occurs (slit "boundary=") content_type →
  parse_multipart_form_data body content_type = inl missing_boundary.
Proof.
  intros Hn. unfold parse_multipart_form_data.
  by rewrite re_search_boundary_absent.
Qed.

(** C1. Whatever the body, a content type in which the text [boundary=]
    does not occur makes the decoder raise the missing-boundary error: the
    result is the exception and no dictionary. *)
Theorem missing_boundary_is_hard_error (body : bytes) (content_type : str) :
  ¬ occurs (slit "boundary=") content_type →
  parse_multipart_form_data body content_type = inl missing_boundary.
Proof.
  intros Hn. unfold parse_multipart_form_data.
  rewrite (re_search_boundary_absent content_type Hn). reflexivity.
Qed.

Lemma missing_boundary_is_hard_error_witness :
  ¬ occurs (slit "boundary=") ct_plain
  ∧ parse_multipart_form_data ex_body ct_plain = inl missing_boundary.
Proof.
  assert (¬ occurs (slit "boundary=") ct_plain) as Hn.
  { apply occursb_false. vm_compute. reflexivity. }
  split.
  - exact Hn.
  - exact (missing_boundary_is_hard_error ex_body ct_plain Hn).
Defined.





(** * Parts and what the loop stores for them *)

Lemma part_of_unique part h1 p1 h2 p2 :
  part_of part h1 p1 → part_of part h2 p2 → h1 = h2 ∧ p1 = p2.
Proof.
  intros H1%bytes_split1_part H2%bytes_split1_part.
  rewrite H1 in H2. by injection H2.
Qed.

Lemma re_search_content_disposition_inv s groups :
  re_search_content_disposition s = Some groups →
  ∃ a b, s = a ++ b ∧ match_content_disposition_at b = Some groups.
Proof.
  induction s as [|c s IH]; rewrite re_search_content_disposition_unfold.
  - destruct (match_content_disposition_at []) eqn:Hm; [|done].
    intros [= ->]. by exists [], [].
  - destruct (match_content_disposition_at (c :: s)) eqn:Hm.
    + intros [= ->]. by exists [], (c :: s).
    + intros (a & b & -> & Hb)%IH. by exists (c :: a), b.
Qed.


Lemma parse_part_store_name part k v :
  parse_part part = Store k v → disposition_name part k.
Proof.
  unfold parse_part, bytes_split1.
  destruct (split_first blank_line part) as [[h b]|] eqn:Hs; [|done].
  apply split_first_inv in Hs.
  destruct (bytes_decode h) as [|text] eqn:Hh; [done|].
  destruct (re_search_content_disposition text) as [[name f]|] eqn:Hr;
    [|done].
  intros Hk. exists h, b, text, f. split_and!; [done..|].
  destruct (truthy f); [by injection Hk as -> _|].
  destruct (bytes_decode (bytes_rstrip b CRLF)); [done|].
  by injection Hk as -> _.
Qed.

Lemma parse_part_stored part l payload v :
  well_formed_part part l payload →
  stored_value l (bytes_rstrip payload CRLF) v →
  parse_part part = Store (field_name l) v.
Proof.
  intros Hwf Hv. rewrite (parse_part_well_formed _ _ _ Hwf).
  unfold stored_value in Hv. destruct (file_name l) as [x|].
  - by rewrite Hv.
  - by destruct Hv as (value & -> & ->).
Qed.

Lemma loop_log st ps :
  (∀ p e, p ∈ ps → parse_part p ≠ Caught e) →
  (foldl loop_step st ps).2 = st.2.
Proof.
  revert st. induction ps as [|p ps IH]; intros st Hps; simpl; [done|].
  rewrite IH by (intros q e Hq; apply Hps; by right).
  unfold loop_step. destruct (parse_part p) as [name v| |e] eqn:Hp; [done..|].
  by destruct (Hps p e (list_elem_of_here _ _)).
Qed.

(** ** Checking concrete inputs *)

Lemma quotableb_sound x : quotableb x = true → quotable x.
Proof.
  destruct x as [|c x]; [done|]. unfold quotableb. rewrite forallb_forall.
  intros Hx. split; [done|]. intros Hin%list_elem_of_In.
  apply Hx in Hin. by apply is_not_true in Hin.
Qed.

Lemma layout_okb_sound l : layout_okb l = true → layout_ok l.
Proof.
  unfold layout_okb, layout_ok.
  intros [[Hb Hn]%andb_prop Hf]%andb_prop. split_and!.
  - by apply first_at_endb_sound.
  - by apply quotableb_sound.
  - destruct (file_name l) as [x|]; [by apply quotableb_sound|].
    apply bool_decide_eq_true_1 in Hf. intros x r Hs Hx.
    rewrite Hs in Hf. by rewrite match_filename_at_attr in Hf.
Qed.

Lemma well_formed_part_check part l payload header_block :
  part = header_block ++ blank_line ++ payload →
  first_at_endb blank_line header_block = true →
  bytes_decode header_block = inr (header_text l) →
  layout_okb l = true →
  well_formed_part part l payload.
Proof.
  intros -> Hh Hd Hl. exists header_block. split_and!.
  - split; [done | by apply first_at_endb_sound].
  - done.
  - by apply layout_okb_sound.
Qed.

Lemma well_framed_check delim pre ps closing :
  first_at_endb delim pre = true →
  forallb (first_at_endb delim) ps = true →
  occursb delim closing = false →
  well_framed delim pre ps closing.
Proof.
  intros Hpre Hps Hc. split_and!.
  - by apply first_at_endb_sound.
  - apply Forall_forall. intros p Hp%list_elem_of_In.
    rewrite forallb_forall in Hps. by apply first_at_endb_sound, Hps.
  - by apply occursb_false.
Qed.

Lemma announces_check ct token token_bytes :
  re_search_boundary ct = Some token →
  str_encode token = inr token_bytes →
  announces ct (blit "--" ++ token_bytes).
Proof. intros Ht Hb. by exists token, token_bytes. Qed.

Lemma announces_B : announces ct_B delim_B.
Proof. apply (announces_check ct_B [66] [x42]); vm_compute; reflexivity. Qed.

Lemma well_formed_sent_part name filename content :
  first_at_endb blank_line (cd_header name filename) = true →
  bytes_decode (cd_header name filename)
  = inr (header_text (cd_layout name filename)) →
  layout_okb (cd_layout name filename) = true →
  well_formed_part (sent_part (cd_header name filename) content)
                   (cd_layout name filename) (content ++ CRLF).
Proof.
  intros Hh Hd Hl.
  by apply (well_formed_part_check _ _ _ (cd_header name filename)).
Qed.

Ltac by_computation := vm_compute; reflexivity.


Lemma well_formed_part_note :
  well_formed_part part_note (cd_layout "note" None) (blit "hello" ++ CRLF).
Proof. apply well_formed_sent_part; by_computation. Qed.

Lemma well_formed_part_note2 :
  well_formed_part part_note2 (cd_layout "note" None) (blit "bye" ++ CRLF).
Proof. apply well_formed_sent_part; by_computation. Qed.

(** * Bodies with several parts *)



(** ** The pattern, read from the left *)

Lemma match_content_disposition_at_inv b name f :
  match_content_disposition_at b = Some (name, f) →
  ∃ s2, b = cd_prefix ++ name ++ dquote :: s2
        ∧ quotable name ∧ match_filename_at s2 = f.
Proof.
  unfold match_content_disposition_at.
  destruct (strip_prefix cd_prefix b) as [s1|] eqn:Hp; [|done].
  apply strip_prefix_inv in Hp as ->.
  destruct (quoted_run s1) as [[n s2]|] eqn:Hq; [|done].
  apply quoted_run_inv in Hq as [-> Hn]. intros [= <- <-]. by exists s2.
Qed.

Lemma match_content_disposition_at_name name r :
  quotable name →
  match_content_disposition_at (cd_prefix ++ name ++ dquote :: r)
  = Some (name, match_filename_at r).
Proof.
  intros Hn. unfold match_content_disposition_at.
  by rewrite strip_prefix_app, quoted_run_at.
Qed.

Lemma match_filename_at_pattern l :
  pattern_holds l →
  match_filename_at (filename_attr (file_name l) ++ after_cd l) = file_name l.
Proof.
  intros [_ Hf]. destruct (file_name l) as [x|]; simpl.
  - rewrite <- !(assoc_L (++)). by apply match_filename_at_attr.
  - by apply match_filename_at_none.
Qed.

(** The search reports the match at [b] when no place before it has
    one. *)
Lemma re_search_content_disposition_leftmost a b groups :
  match_content_disposition_at b = Some groups →
  (∀ a' b', a ++ b = a' ++ b' → (length a' < length a)%nat →
            match_content_disposition_at b' = None) →
  re_search_content_disposition (a ++ b) = Some groups.
Proof.
  intros Hm. induction a as [|c a IH]; intros Hmin.
  - by rewrite app_nil_l, re_search_content_disposition_unfold, Hm.
  - rewrite re_search_content_disposition_unfold.
    rewrite (Hmin [] ((c :: a) ++ b)) by (simpl; first [done | lia]).
    simpl. apply IH. intros a' b' Hab Hlt.
    apply (Hmin (c :: a') b'); simpl; [by rewrite Hab | lia].
Qed.

(** What the search reports is a match, and no place before it has one. *)
Lemma re_search_content_disposition_first s groups :
  re_search_content_disposition s = Some groups →
  ∃ a b, s = a ++ b
         ∧ match_content_disposition_at b = Some groups
         ∧ ∀ a' b', s = a' ++ b' → (length a' < length a)%nat →
                    match_content_disposition_at b' = None.
Proof.
  induction s as [|c s IH]; rewrite re_search_content_disposition_unfold.
  - destruct (match_content_disposition_at []) eqn:Hm; [|done].
    intros [= ->]. exists [], []. split_and!; [done..|].
    intros a' b' _ Hlt. simpl in Hlt. lia.
  - destruct (match_content_disposition_at (c :: s)) eqn:Hm.
    + intros [= ->]. exists [], (c :: s). split_and!; [done..|].
      intros a' b' _ Hlt. simpl in Hlt. lia.
    + intros (a & b & -> & Hb & Hmin)%IH. exists (c :: a), b.
      split_and!; [done..|]. intros a' b' Hab Hlt.
      destruct a' as [|c' a'].
      * simpl in Hab. by rewrite <- Hab.
      * simpl in Hab, Hlt. injection Hab as _ Hab.
        apply (Hmin a' b'); [done | lia].
Qed.

(** The search finds the entry that the layout marks, when it is the
    leftmost. *)
Lemma leftmost_entry_search l :
  leftmost_entry l →
  re_search_content_disposition (header_text l)
  = Some (field_name l, file_name l).
Proof.
  intros [Hpat Hmin]. pose proof Hpat as [Hn _]. unfold header_text.
  apply re_search_content_disposition_leftmost.
  - change (field_name l ++ [dquote] ++ ?x) with (field_name l ++ dquote :: x).
    rewrite match_content_disposition_at_name by done.
    by rewrite match_filename_at_pattern.
  - intros a' b' Hab Hlt.
    destruct (match_content_disposition_at b') as [[n' f']|] eqn:Hm; [|done].
    exfalso.
    apply match_content_disposition_at_inv in Hm as (s2 & -> & Hn' & _).
    pose proof (Hmin {| before_cd := a'; field_name := n';
                        file_name := None; after_cd := s2 |}) as Hle.
    simpl in Hle. unfold header_text in Hle. simpl in Hle.
    assert (length (before_cd l) ≤ length a')%nat; [|lia].
    apply Hle; [|done]. symmetry. exact Hab.
Qed.

(** What the search finds is the leftmost entry of some layout of the
    text. *)
Lemma search_leftmost_entry text name f :
  re_search_content_disposition text = Some (name, f) →
  ∃ l, header_text l = text ∧ leftmost_entry l
       ∧ field_name l = name ∧ file_name l = f.
Proof.
  intros (a & b & -> & Hm & Hmin)%re_search_content_disposition_first.
  apply match_content_disposition_at_inv in Hm as (s2 & -> & Hn & Hf).
  assert (∃ after, s2 = filename_attr f ++ after
                   ∧ match f with
                     | Some x => quotable x
                     | None => no_filename_attr after
                     end) as (after & -> & Hfa).
  { destruct f as [x|].
    - apply match_filename_at_inv in Hf as (r & -> & Hx). exists r.
      split; [|done]. simpl. by rewrite <- !(assoc_L (++)).
    - exists s2. split; [done|]. intros x r -> Hx.
      by rewrite match_filename_at_attr in Hf. }
  exists {| before_cd := a; field_name := name; file_name := f;
            after_cd := after |}.
  split_and!; [done| |done..]. split; [done|]. simpl.
  intros l' Hl' Hn'.
  destruct (decide (length (before_cd l') < length a)%nat) as [Hlt|]; [|lia].
  exfalso.
  pose proof (Hmin (before_cd l')
                (cd_prefix ++ field_name l' ++ dquote
                   :: filename_attr (file_name l') ++ after_cd l')) as Hnone.
  rewrite match_content_disposition_at_name in Hnone by done.
  discriminate (Hnone (eq_sym Hl') Hlt).
Qed.



(** ** What the loop body does with a part, by its headers *)




Lemma carries_disposition_name part name :
  carries part name ↔ disposition_name part name.
Proof.
  split.
  - intros (l & payload & (h & Hp & Hh & Hl) & <-).
    exists h, payload, (header_text l), (file_name l).
    split_and!; [done..|]. by apply leftmost_entry_search.
  - intros (h & payload & text & f & Hp & Hh & Hr).
    apply search_leftmost_entry in Hr as (l & <- & Hl & <- & _).
    exists l, payload. split; [by exists h | done].
Qed.

(** ** The loop, by what the parts store *)






Lemma decode_last_entry ct delim pre ps1 p ps2 closing k v :
  announces ct delim →
  well_framed delim pre (ps1 ++ p :: ps2) closing →
  parse_part p = Store k v →
  (∀ q, q ∈ ps2 → ¬ disposition_name q k) →
  ∃ fields log,
    parse_multipart_form_data
      (multipart_body delim pre (ps1 ++ p :: ps2) closing) ct
    = inr (fields, log)
    ∧ fields !! k = Some v.
Proof.
  intros Hann Hfr Hp Hps2.
  exists (foldl loop_step (∅, []) (ps1 ++ p :: ps2)).1,
         (foldl loop_step (∅, []) (ps1 ++ p :: ps2)).2.
  rewrite (decode_framed _ _ _ _ _ Hann Hfr).
  rewrite <- surjective_pairing. split; [done|].
  apply loop_last_wins; [done|].
  intros q w Hq Hw. by apply (Hps2 q Hq), (parse_part_store_name _ _ w).
Qed.




(** * Trailing newline bytes *)

(** C8. No value of the returned dictionary ends with the sequence CR LF,
    be it the text of a plain field or the content of a file record. *)
Theorem values_have_no_trailing_crlf
    (body : bytes) (ct : str) (fields : gmap str field_value)
    (log : list exn) (name : str) (v : field_value) :
  parse_multipart_form_data body ct = inr (fields, log) →
  fields !! name = Some v →
  match v with
  | Plain value => ¬ ends_with [13; 10] value
  | FileField _ content => ¬ ends_with CRLF content
  end.
Proof.
  unfold parse_multipart_form_data.
  destruct (re_search_boundary ct) as [tok|]; [|done].
  destruct (str_encode tok) as [|tb]; [done|].
  destruct (bytes_split body _) as [|parts]; [done|].
  intros [= Hrun] Hv.
  pose proof (loop_invariant
    (λ _ w, match w with
            | Plain value => no_trailing_newline_str value
            | FileField _ content => no_trailing_newline content
            end)
    (∅, []) (slice_1_m1 parts)) as Hinv.
  rewrite Hrun in Hinv. simpl in Hinv.
  specialize (Hinv (λ p k w Hp, parse_part_no_trailing p k w Hp)
                   (map_Forall_empty _) name v Hv).
  destruct v as [value | x content]; simpl in Hinv.
  - intros [a ->]. destruct (Hinv (a ++ [13]) 10); [|done].
    by rewrite <- (assoc_L (++)).
  - by apply no_trailing_newline_ends.
Qed.

Lemma values_have_no_trailing_crlf_witness :
  ¬ ends_with CRLF (blit "hi").
Proof.
  apply (values_have_no_trailing_crlf body_txt ct_B
           {[ slit "file" := FileField (slit "a.txt") (blit "hi") ]} []
           (slit "file") (FileField (slit "a.txt") (blit "hi"))).
  - vm_compute. reflexivity.
  - vm_compute. reflexivity.
Defined.

(** C9. The removal of trailing newlines cuts off nothing but CR and LF
    bytes and leaves a result that ends in neither.  When the payload of
    a part is some bytes that do not end in CR or LF, followed by CR and
    LF bytes in any number and order, the removal leaves the first bytes
    alone, and the value that the dictionary holds for the part is made
    of them, without any of the newline bytes. *)
Theorem trailing_newlines_all_removed
    (ct : str) (delim pre closing p : bytes) (ps1 ps2 : list bytes)
    (l : part_layout) (core nl : bytes) (v : field_value) :
  announces ct delim →
  well_framed delim pre (ps1 ++ p :: ps2) closing →
  well_formed_part p l (core ++ nl) →
  no_trailing_newline core →
  Forall is_newline nl →
  stored_value l core v →
  (∀ q, q ∈ ps2 → ¬ disposition_name q (field_name l)) →
  (∀ s, ∃ cut, s = bytes_rstrip s CRLF ++ cut
               ∧ Forall is_newline cut
               ∧ no_trailing_newline (bytes_rstrip s CRLF))
  ∧ bytes_rstrip (core ++ nl) CRLF = core
  ∧ ∃ fields log,
      parse_multipart_form_data
        (multipart_body delim pre (ps1 ++ p :: ps2) closing) ct
      = inr (fields, log)
      ∧ fields !! field_name l = Some v.
Proof.
  intros Hann Hfr Hp Hcore Hnl Hv Hps2.
  assert (bytes_rstrip (core ++ nl) CRLF = core) as Hstrip.
  { by rewrite bytes_rstrip_newlines, bytes_rstrip_id. }
  split.
  { intros s. destruct (bytes_rstrip_cut s) as (cut & Hs & Hcut).
    exists cut. split_and!; [done..|]. apply bytes_rstrip_no_trailing. }
  split; [done|].
  apply decode_last_entry; [done..| |done].
  apply (parse_part_stored _ _ (core ++ nl)); [done|]. by rewrite Hstrip.
Qed.

Lemma no_trailing_newline_check (s : bytes) :
  match rev s with
  | [] => true
  | c :: _ => negb (bool_decide (c ∈ CRLF))
  end = true →
  no_trailing_newline s.
Proof.
  intros Hs a c ->. rewrite rev_app_distr in Hs. simpl in Hs.
  intros Hc%in_CRLF. by rewrite Hc in Hs.
Qed.

Lemma Forall_is_newline_check (nl : bytes) :
  forallb (λ c, bool_decide (c ∈ CRLF)) nl = true → Forall is_newline nl.
Proof.
  rewrite forallb_forall, Forall_forall. intros Hnl c Hc%list_elem_of_In.
  by apply in_CRLF, Hnl.
Qed.

Lemma trailing_newlines_all_removed_witness :
  (∀ s, ∃ cut, s = bytes_rstrip s CRLF ++ cut
               ∧ Forall is_newline cut
               ∧ no_trailing_newline (bytes_rstrip s CRLF))
  ∧ bytes_rstrip (blit "hi" ++ [LF; CR; LF]) CRLF = blit "hi"
  ∧ ∃ fields log,
      parse_multipart_form_data
        (multipart_body delim_B [] ([] ++ part_txt :: []) closing_B) ct_B
      = inr (fields, log)
      ∧ fields !! slit "file" = Some (FileField (slit "a.txt") (blit "hi")).
Proof.
  apply (trailing_newlines_all_removed ct_B delim_B [] closing_B part_txt
           [] [] (cd_layout "file" (Some "a.txt"%string)) (blit "hi")
           [LF; CR; LF]).
  - exact announces_B.
  - apply well_framed_check; vm_compute; reflexivity.
  - apply (well_formed_part_check _ _ _
             (cd_header "file" (Some "a.txt"%string))); vm_compute; reflexivity.
  - apply no_trailing_newline_check. vm_compute. reflexivity.
  - apply Forall_is_newline_check. vm_compute. reflexivity.
  - vm_compute. reflexivity.
  - intros q Hq. by apply elem_of_nil in Hq.
Defined.

(** * Empty attributes *)



(** * File parts *)

(** A file part whose content does not end in a newline byte is stored
    with its filename and exactly its content. *)
Lemma file_content_preserved part l content x :
  well_formed_part part l (content ++ CRLF) →
  file_name l = Some x →
  no_trailing_newline content →
  parse_part part = Store (field_name l) (FileField x content).
Proof.
  intros Hwf Hx Hc. apply (parse_part_stored _ _ (content ++ CRLF)); [done|].
  unfold stored_value. rewrite Hx.
  rewrite bytes_rstrip_newlines by by apply Forall_is_newline_check.
  by rewrite bytes_rstrip_id.
Qed.

(** A part without filename attribute is stored as the text of its
    payload. *)
Lemma plain_part_is_text part l payload value :
  well_formed_part part l payload →
  file_name l = None →
  bytes_decode (bytes_rstrip payload CRLF) = inr value →
  parse_part part = Store (field_name l) (Plain value).
Proof.
  intros Hwf Hx Hv. apply (parse_part_stored _ _ payload); [done|].
  unfold stored_value. rewrite Hx. by exists value.
Qed.

(** C5, where the code departs from it. The part below is well formed, its
    Content-Disposition header carries the filename [a.txt] and its
    content is the three bytes [h], [i], LF, sent with the usual line end
    before the closing delimiter. The dictionary has the filename right,
    but the content it holds is two bytes long: the final line feed of the
    file is gone. *)
Theorem file_content_loses_final_newline :
  well_formed_part part_txt (cd_layout "file" (Some "a.txt"%string))
                   (content_nl ++ CRLF)
  ∧ part_txt = sent_part (cd_header "file" (Some "a.txt"%string)) content_nl
  ∧ parse_multipart_form_data body_txt ct_B
    = inr ({[ slit "file" := FileField (slit "a.txt") (blit "hi") ]}, [])
  ∧ blit "hi" ≠ content_nl.
Proof.
  split_and!.
  - apply well_formed_sent_part; by_computation.
  - reflexivity.
  - by_computation.
  - discriminate.
Qed.

(** * The handlers *)

Lemma upload_handler_failure w ev e :
  UploadFunction.handle w ev = inl e →
  UploadFunction.lambda_handler w ev
  = {| statusCode := 500; body := Failure "Error: " e |}.
Proof. intros He. unfold UploadFunction.lambda_handler. by rewrite He. Qed.

Lemma upload_handler_missing_parameter w ev b ct :
  upload_request w ev b ct → missing_parameter b ct →
  ∃ msg, UploadFunction.handle w ev = inl (ValueError msg).
Proof.
  intros (text & items & Hbody & Henc & Hheaders & Hct & Hne) Hmiss.
  unfold UploadFunction.handle. rewrite Hbody, Hheaders. simpl.
  rewrite Henc. simpl. rewrite Hct.
  destruct ct as [|c ct]; [done|].
  destruct Hmiss as [Hnb | (fields & log & Hparse & Hfile)].
  - rewrite (missing_boundary_raises _ _ Hnb). by eexists.
  - rewrite Hparse. simpl.
    destruct Hfile as [-> | [name ->]]; by eexists.
Qed.

Lemma polly_handler_missing_key w ev :
  missing_key ev →
  ∃ key, PollyFunction.lambda_handler w ev
         = {| statusCode := 400;
              body := Failure "Missing key: " (KeyError key) |}.
Proof.
  unfold missing_key, PollyFunction.lambda_handler, PollyFunction.handle.
  destruct (PollyFunction.translated_text ev) as [text|]; simpl;
    [|by eexists].
  destruct (PollyFunction.bucket ev) as [name|]; simpl; [|by eexists].
  destruct (PollyFunction.output_file ev) as [file|]; simpl; [|by eexists].
  by intros [?|[?|?]].
Qed.

(** C2, as the code has it. When an upload lacks a parameter (no boundary
    in the content type, no [file] field, a [file] field without content)
    the upload handler answers with status 500 and the message of the
    [ValueError]: its only [except] clause catches every exception and
    gives that status. The speech handler answers with status 400 when a
    key that it reads is absent from the event. *)
Theorem missing_parameter_status
    (wu : UploadFunction.world) (ev : UploadFunction.event)
    (b : bytes) (ct : str)
    (wp : PollyFunction.world) (pev : PollyFunction.event) :
  upload_request wu ev b ct →
  missing_parameter b ct →
  missing_key pev →
  (∃ msg, UploadFunction.lambda_handler wu ev
          = {| statusCode := 500;
               body := Failure "Error: " (ValueError msg) |})
  ∧ (∃ key, PollyFunction.lambda_handler wp pev
            = {| statusCode := 400;
                 body := Failure "Missing key: " (KeyError key) |}).
Proof.
  intros Hreq Hmiss Hkey. split.
  - destruct (upload_handler_missing_parameter _ _ _ _ Hreq Hmiss)
      as [msg Hmsg].
    exists msg. by apply upload_handler_failure.
  - by apply polly_handler_missing_key.
Qed.

Lemma upload_request_event b ct :
  str_encode (text_of b) = inr b →
  ct ≠ [] →
  upload_request upload_world (upload_event b ct) b ct.
Proof.
  intros Hb Hct. exists (text_of b), [(slit "Content-Type", ct)].
  split_and!; [done..| |done].
  unfold UploadFunction.lowercase_keys. simpl.
  change (ascii_lower (slit "Content-Type")) with (slit "content-type").
  apply lookup_insert_eq.
Qed.

Lemma missing_parameter_status_witness :
  ((∃ msg,
      UploadFunction.lambda_handler upload_world (upload_event ex_body ct_plain)
      = {| statusCode := 500; body := Failure "Error: " (ValueError msg) |})
   ∧ (∃ msg,
        UploadFunction.lambda_handler upload_world
          (upload_event body_no_file ct_B)
        = {| statusCode := 500; body := Failure "Error: " (ValueError msg) |})
   ∧ (∃ msg,
        UploadFunction.lambda_handler upload_world
          (upload_event body_empty_file ct_B)
        = {| statusCode := 500; body := Failure "Error: " (ValueError msg) |}))
  ∧ (∃ key,
       PollyFunction.lambda_handler polly_world polly_event_no_bucket
       = {| statusCode := 400;
            body := Failure "Missing key: " (KeyError key) |}).
Proof.
  assert (missing_key polly_event_no_bucket) as Hkey.
  { right. left. reflexivity. }
  split; [split_and!|].
  - apply (missing_parameter_status upload_world
             (upload_event ex_body ct_plain) ex_body ct_plain
             polly_world polly_event_no_bucket).
    + apply upload_request_event; [vm_compute; reflexivity | discriminate].
    + left. apply occursb_false. vm_compute. reflexivity.
    + exact Hkey.
  - apply (missing_parameter_status upload_world
             (upload_event body_no_file ct_B) body_no_file ct_B
             polly_world polly_event_no_bucket).
    + apply upload_request_event; [vm_compute; reflexivity | discriminate].
    + right. exists {[ slit "note" := Plain (slit "hello") ]}, [].
      split; [vm_compute; reflexivity | left; vm_compute; reflexivity].
    + exact Hkey.
  - apply (missing_parameter_status upload_world
             (upload_event body_empty_file ct_B) body_empty_file ct_B
             polly_world polly_event_no_bucket).
    + apply upload_request_event; [vm_compute; reflexivity | discriminate].
    + right. exists {[ slit "file" := FileField (slit "a.mp3") [] ]}, [].
      split; [vm_compute; reflexivity|].
      right. exists (slit "a.mp3"). vm_compute. reflexivity.
    + exact Hkey.
  - apply (missing_parameter_status upload_world
             (upload_event ex_body ct_plain) ex_body ct_plain
             polly_world polly_event_no_bucket).
    + apply upload_request_event; [vm_compute; reflexivity | discriminate].
    + left. apply occursb_false. vm_compute. reflexivity.
    + exact Hkey.
Defined.

(** C2 as stated fails for the upload handler: a request whose content
    type has no boundary is answered with status 500, which is no
    client-error status. *)
Lemma upload_missing_boundary_status_500 :
  upload_request upload_world (upload_event ex_body ct_plain) ex_body ct_plain
  ∧ missing_parameter ex_body ct_plain
  ∧ UploadFunction.lambda_handler upload_world (upload_event ex_body ct_plain)
    = {| statusCode := 500; body := Failure "Error: " missing_boundary |}
  ∧ ¬ client_error
        (statusCode (UploadFunction.lambda_handler upload_world
                       (upload_event ex_body ct_plain))).
Proof.
  split_and!.
  - apply upload_request_event; [vm_compute; reflexivity | discriminate].
  - left. apply occursb_false. vm_compute. reflexivity.
  - vm_compute. reflexivity.
  - assert (statusCode (UploadFunction.lambda_handler upload_world
                          (upload_event ex_body ct_plain)) = 500%Z) as ->.
    { vm_compute. reflexivity. }
    unfold client_error. lia.
Qed.

(** * More on the decoder *)

Lemma match_boundary_at_token tok rest :
  tok ≠ [] → semicolon ∉ tok →
  rest = [] ∨ (∃ r, rest = semicolon :: r) →
  match_boundary_at (slit "boundary=" ++ tok ++ rest) = Some tok.
Proof.
  intros Hne Hsc Hrest. unfold match_boundary_at. rewrite strip_prefix_app.
  rewrite (span_run _ tok rest).
  - simpl. by destruct tok.
  - apply Forall_forall. intros c Hc. apply is_not_true. by intros ->.
  - destruct Hrest as [-> | [r ->]]; [done | by apply is_not_false].
Qed.

Lemma match_boundary_at_full s tok :
  match_boundary_at s = Some tok →
  ∃ rest, s = slit "boundary=" ++ tok ++ rest
          ∧ tok ≠ [] ∧ (semicolon ∉ tok)
          ∧ (rest = [] ∨ ∃ r, rest = semicolon :: r).
Proof.
  unfold match_boundary_at.
  destruct (strip_prefix _ s) as [after|] eqn:Hp; [|done].
  apply strip_prefix_inv in Hp as ->.
  destruct (span (is_not semicolon) after) as [run rest] eqn:Hspan.
  apply span_inv in Hspan as (-> & Hrun & Hrest). simpl.
  destruct run as [|c run]; [done|]. intros [= <-]. exists rest.
  split_and!; [done..| |].
  - rewrite Forall_forall in Hrun. intros Hin. apply Hrun in Hin.
    by apply is_not_true in Hin.
  - destruct rest as [|d rest]; [by left|]. right. exists rest.
    by apply is_not_false in Hrest as ->.
Qed.

Lemma match_boundary_at_none s y :
  match_boundary_at s = None → s = slit "boundary=" ++ y →
  y = [] ∨ ∃ r, y = semicolon :: r.
Proof.
  intros Hm ->. unfold match_boundary_at in Hm.
  rewrite strip_prefix_app in Hm.
  destruct y as [|c r]; [by left|]. right. exists r. simpl in Hm.
  destruct (is_not semicolon c) eqn:Hc.
  - by destruct (span (is_not semicolon) r).
  - by apply is_not_false in Hc as ->.
Qed.

Lemma no_token_before_nil : no_token_before [].
Proof.
  intros x y Hxy. left. apply (f_equal length) in Hxy.
  rewrite !length_app in Hxy. simpl in Hxy.
  destruct y; [done | simpl in Hxy; lia].
Qed.

Lemma no_token_before_tail c a : no_token_before (c :: a) → no_token_before a.
Proof. intros Ha x y Hxy. apply (Ha (c :: x) y). simpl. by rewrite Hxy. Qed.

Lemma no_token_beforeb_sound a : no_token_beforeb a = true → no_token_before a.
Proof.
  unfold no_token_beforeb. intros Hall x y Hxy.
  destruct y as [|c y]; [by left|]. right. exists y.
  rewrite forallb_forall in Hall.
  assert (length x < length a)%nat as Hlt.
  { apply (f_equal length) in Hxy. rewrite !length_app in Hxy.
    simpl in Hxy. lia. }
  specialize (Hall (length x)).
  rewrite Hxy, drop_app_length, startswith_app in Hall.
  rewrite (assoc_L (++)), <- length_app, drop_app_length in Hall.
  simpl in Hall. f_equal. apply N.eqb_eq, Hall, in_seq. lia.
Qed.

(** X1. The boundary token is the text between a [boundary=] of the
    content type and the next [;], or the end when there is none, and it
    is never empty: the token is taken at the first [boundary=] that is
    not directly followed by [;] or by the end, and an occurrence that is
    followed so is passed over.  The search gives a token in this case
    and in no other. *)
Theorem boundary_token_extracted (ct tok : str) :
  re_search_boundary ct = Some tok
  ↔ ∃ a rest,
      ct = a ++ slit "boundary=" ++ tok ++ rest
      ∧ no_token_before a
      ∧ tok ≠ []
      ∧ (semicolon ∉ tok)
      ∧ (rest = [] ∨ ∃ r, rest = semicolon :: r).
Proof.
  split.
  - induction ct as [|c s IH]; rewrite re_search_boundary_unfold.
    + destruct (match_boundary_at []) as [t|] eqn:Hm; [|done].
      intros [= ->].
      apply match_boundary_at_full in Hm as (rest & Hs & Ht & Hsc & Hr).
      exists [], rest. split_and!; [done | apply no_token_before_nil | done..].
    + destruct (match_boundary_at (c :: s)) as [t|] eqn:Hm.
      * intros [= ->].
        apply match_boundary_at_full in Hm as (rest & Hs & Ht & Hsc & Hr).
        exists [], rest.
        split_and!; [done | apply no_token_before_nil | done..].
      * intros (a & rest & -> & Ha & Ht & Hsc & Hr)%IH.
        exists (c :: a), rest. split_and!; [done| |done..].
        intros x y Hxy. destruct x as [|x0 x].
        -- destruct y as [|d y]; [by left|]. right. exists y.
           destruct (match_boundary_at_none _ ((d :: y) ++ tok ++ rest) Hm)
             as [? | [r [= ->]]]; [|done|done].
           change (c :: a ++ slit "boundary=" ++ tok ++ rest)
             with ((c :: a) ++ slit "boundary=" ++ tok ++ rest).
           rewrite (assoc_L (++) (c :: a)), Hxy.
           by rewrite app_nil_l, <- !(assoc_L (++)).
        -- simpl in Hxy. injection Hxy as _ Hxy. by apply (Ha x y).
  - intros (a & rest & -> & Ha & Ht & Hsc & Hr).
    induction a as [|c a IH].
    + rewrite app_nil_l, re_search_boundary_unfold.
      by rewrite match_boundary_at_token.
    + change ((c :: a) ++ slit "boundary=" ++ tok ++ rest)
        with (c :: (a ++ slit "boundary=" ++ tok ++ rest)).
      rewrite re_search_boundary_cons.
      destruct (match_boundary_at (c :: a ++ slit "boundary=" ++ tok ++ rest))
        as [t|] eqn:Hm; [exfalso | by apply IH, (no_token_before_tail c)].
      apply match_boundary_at_full in Hm as (rest' & Hs & Ht' & Hsc' & _).
      change (c :: a ++ slit "boundary=" ++ tok ++ rest)
        with ((c :: a) ++ slit "boundary=" ++ tok ++ rest) in Hs.
      rewrite (assoc_L (++) (c :: a)) in Hs.
      apply app_eq_inv in Hs as [(k & Hk & Hk')|(k & Hk & _)].
      * destruct (Ha [] k Hk) as [-> | [r ->]].
        -- apply (f_equal length) in Hk. rewrite !length_app in Hk.
           simpl in Hk. lia.
        -- destruct t as [|t0 t]; [done|]. injection Hk' as -> _.
           apply Hsc'. by left.
      * apply (f_equal length) in Hk. rewrite !length_app in Hk.
        simpl in Hk. lia.
Qed.

Lemma boundary_token_extracted_witness :
  re_search_boundary
    (slit "multipart/form-data; boundary=;boundary=xYz; charset=utf-8")
  = Some (slit "xYz").
Proof.
  apply (proj2 (boundary_token_extracted _ (slit "xYz"))).
  exists (slit "multipart/form-data; boundary=;"), (slit "; charset=utf-8").
  split_and!.
  - vm_compute. reflexivity.
  - apply no_token_beforeb_sound. vm_compute. reflexivity.
  - discriminate.
  - intros Hin%list_elem_of_In. vm_compute in Hin.
    repeat destruct Hin as [Hin|Hin]; try discriminate Hin. exact Hin.
  - right. eexists. vm_compute. reflexivity.
Defined.

Lemma bytes_split_none body delim :
  delim ≠ [] → ¬ occurs delim body → bytes_split body delim = inr [body].
Proof.
  intros Hd Hn. unfold bytes_split. destruct delim as [|d delim]; [done|].
  by rewrite split_from_none.
Qed.

(** X2. A body in which the delimiter does not occur (the empty body is
    one), or occurs once, has no part: the decoder returns the empty
    dictionary and prints nothing. *)
Theorem body_without_parts (ct : str) (delim body : bytes) :
  announces ct delim →
  ¬ occurs delim body
  ∨ (∃ pre closing,
       body = multipart_body delim pre [] closing
       ∧ well_framed delim pre [] closing) →
  parse_multipart_form_data body ct = inr (∅, []).
Proof.
  intros Hann [Hn | (pre & closing & -> & Hfr)].
  - pose proof (announces_nonempty _ _ Hann) as Hd.
    destruct Hann as (tok & tb & Htok & Htb & ->).
    unfold parse_multipart_form_data. rewrite Htok, Htb.
    by rewrite bytes_split_none.
  - by rewrite (decode_framed _ _ _ _ _ Hann Hfr).
Qed.

Lemma body_without_parts_witness :
  parse_multipart_form_data [] ct_B = inr (∅, [])
  ∧ parse_multipart_form_data (blit "junk--B--") ct_B = inr (∅, []).
Proof.
  split.
  - apply (body_without_parts ct_B delim_B []); [exact announces_B|].
    left. apply occursb_false. vm_compute. reflexivity.
  - apply (body_without_parts ct_B delim_B (blit "junk--B--"));
      [exact announces_B|].
    right. exists (blit "junk"), (blit "--"). split; [reflexivity|].
    apply well_framed_check; vm_compute; reflexivity.
Defined.


(** X3. A last part that no delimiter follows is dropped without a trace:
    when the body ends in a well-formed part instead of the closing
    delimiter, and no other part carries its name, the dictionary has no
    entry under that name. *)
Theorem unterminated_last_part_is_dropped
    (ct : str) (delim pre last : bytes) (ps : list bytes)
    (name : str) (v : field_value) :
  announces ct delim →
  well_framed delim pre ps last →
  part_entry last name v →
  (∀ p, p ∈ ps → ¬ disposition_name p name) →
  ∃ fields log,
    parse_multipart_form_data (multipart_body delim pre ps last) ct
    = inr (fields, log)
    ∧ fields !! name = None.
Proof.
  intros Hann Hfr _ Hps.
  exists (foldl loop_step (∅, []) ps).1, (foldl loop_step (∅, []) ps).2.
  rewrite (decode_framed _ _ _ _ _ Hann Hfr), <- surjective_pairing.
  split; [done|]. apply eq_None_not_Some. rewrite loop_is_Some.
  intros [[? [=]] | (p & w & Hp & Hw)].
  by apply (Hps p Hp), (parse_part_store_name _ _ w).
Qed.

Lemma not_disposition_name_check part h b text name :
  part = h ++ blank_line ++ b →
  first_at_endb blank_line h = true →
  bytes_decode h = inr text →
  match re_search_content_disposition text with
  | Some (n, _) => bool_decide (n ≠ name)
  | None => true
  end = true →
  ¬ disposition_name part name.
Proof.
  intros -> Hh Hd Hr (h' & b' & text' & f & Hp & Hh' & Hr').
  assert (part_of (h ++ blank_line ++ b) h b) as Hp0.
  { split; [done | by apply first_at_endb_sound]. }
  destruct (part_of_unique _ _ _ _ _ Hp Hp0) as [-> ->].
  rewrite Hd in Hh'. injection Hh' as <-. rewrite Hr' in Hr.
  by apply bool_decide_eq_true_1 in Hr.
Qed.

Lemma part_entry_note : part_entry part_note (slit "note") (Plain (slit "hello")).
Proof.
  exists (cd_layout "note" None), (blit "hello" ++ CRLF).
  split_and!; [exact well_formed_part_note | reflexivity |].
  exists (slit "hello"). split; vm_compute; reflexivity.
Qed.


Lemma unterminated_last_part_is_dropped_witness :
  ∃ fields log,
    parse_multipart_form_data
      (multipart_body delim_B [] [part_mp3] part_note) ct_B
    = inr (fields, log)
    ∧ fields !! slit "note" = None.
Proof.
  apply (unterminated_last_part_is_dropped ct_B delim_B [] part_note
           [part_mp3] (slit "note") (Plain (slit "hello"))).
  - exact announces_B.
  - apply well_framed_check; vm_compute; reflexivity.
  - exact part_entry_note.
  - intros p Hp%list_elem_of_singleton. subst p.
    apply (not_disposition_name_check _
             (cd_header "file" (Some "a.mp3"%string))
             (blit "ID3 data" ++ CRLF)
             (header_text (cd_layout "file" (Some "a.mp3"%string))));
      vm_compute; reflexivity.
Defined.

Lemma loop_accounting st ps :
  (size (foldl loop_step st ps).1 + length (foldl loop_step st ps).2
   ≤ size st.1 + length st.2 + length ps)%nat.
Proof.
  revert st. induction ps as [|p ps IH]; intros st; simpl; [lia|].
  etrans; [apply IH|].
  assert (size (loop_step st p).1 + length (loop_step st p).2
          ≤ S (size st.1 + length st.2))%nat; [|lia].
  unfold loop_step. destruct (parse_part p); simpl.
  - rewrite map_size_insert. destruct (st.1 !! name); simpl; lia.
  - lia.
  - rewrite length_app. simpl. lia.
Qed.

(** X4. In a framed body with K parts every part gives at most one entry
    or one printed error, never both: the number of entries and the
    number of printed errors add up to K at most. *)
Theorem entries_and_errors_bounded
    (ct : str) (delim pre closing : bytes) (ps : list bytes)
    (fields : gmap str field_value) (log : list exn) :
  announces ct delim →
  well_framed delim pre ps closing →
  parse_multipart_form_data (multipart_body delim pre ps closing) ct
  = inr (fields, log) →
  (size fields + length log ≤ length ps)%nat.
Proof.
  intros Hann Hfr. rewrite (decode_framed _ _ _ _ _ Hann Hfr).
  intros [= Hrun]. pose proof (loop_accounting (∅, []) ps) as Hacc.
  rewrite Hrun in Hacc. simpl in Hacc. by rewrite map_size_empty in Hacc.
Qed.

Lemma entries_and_errors_bounded_witness :
  (size ({[ slit "file" := FileField (slit "a.mp3") (blit "ID3 data") ]}
           : gmap str field_value)
   + length [unpack_error] ≤ length [part_broken; part_mp3])%nat.
Proof.
  apply (entries_and_errors_bounded ct_B delim_B [] closing_B
           [part_broken; part_mp3]).
  - exact announces_B.
  - apply well_framed_check; vm_compute; reflexivity.
  - vm_compute. reflexivity.
Defined.

Lemma match_content_disposition_at_quotable s name f :
  match_content_disposition_at s = Some (name, f) →
  quotable name ∧ (∀ x, f = Some x → quotable x).
Proof.
  unfold match_content_disposition_at.
  destruct (strip_prefix cd_prefix s) as [s1|]; [|done].
  destruct (quoted_run s1) as [[n s2]|] eqn:Hq; [|done].
  intros [= <- <-]. apply quoted_run_inv in Hq as [_ Hn]. split; [done|].
  intros x Hx. by apply match_filename_at_inv in Hx as (r & _ & Hx).
Qed.

Lemma parse_part_quotable part name v :
  parse_part part = Store name v →
  quotable name
  ∧ match v with
    | Plain _ => True
    | FileField filename _ => quotable filename
    end.
Proof.
  unfold parse_part.
  destruct (bytes_split1 part blank_line) as [|h [|b [|? ?]]]; try done.
  destruct (bytes_decode h) as [|text]; [done|].
  destruct (re_search_content_disposition text) as [[n f]|] eqn:Hr; [|done].
  apply re_search_content_disposition_inv in Hr as (a & s & _ & Hm).
  apply match_content_disposition_at_quotable in Hm as [Hn Hf].
  destruct f as [[|c x]|]; simpl.
  - destruct (bytes_decode _); [done|]. by intros [= <- <-].
  - intros [= <- <-]. split; [done|]. by apply Hf.
  - destruct (bytes_decode _); [done|]. by intros [= <- <-].
Qed.

(** X5. Whatever the body, every name in the returned dictionary is
    non-empty and holds no double quote, and so does the filename of
    every file record. *)
Theorem names_and_filenames_are_quotable
    (body : bytes) (ct : str) (fields : gmap str field_value)
    (log : list exn) (name : str) (v : field_value) :
  parse_multipart_form_data body ct = inr (fields, log) →
  fields !! name = Some v →
  quotable name
  ∧ match v with
    | Plain _ => True
    | FileField filename _ => quotable filename
    end.
Proof.
  unfold parse_multipart_form_data.
  destruct (re_search_boundary ct) as [tok|]; [|done].
  destruct (str_encode tok) as [|tb]; [done|].
  destruct (bytes_split body _) as [|parts]; [done|].
  intros [= Hrun] Hv.
  pose proof (loop_invariant
    (λ k w, quotable k
            ∧ match w with
              | Plain _ => True
              | FileField filename _ => quotable filename
              end)
    (∅, []) (slice_1_m1 parts)) as Hinv.
  rewrite Hrun in Hinv. simpl in Hinv.
  exact (Hinv parse_part_quotable (map_Forall_empty _) name v Hv).
Qed.

Lemma names_and_filenames_are_quotable_witness :
  quotable (slit "file") ∧ quotable (slit "a.mp3").
Proof.
  apply (names_and_filenames_are_quotable ex_body ct_B
           {[ slit "file" := FileField (slit "a.mp3") (blit "ID3 data") ]} []
           (slit "file") (FileField (slit "a.mp3") (blit "ID3 data")));
    vm_compute; reflexivity.
Defined.





(** * More on the upload handler *)

Lemma lowercase_keys_app (w : UploadFunction.world)
    (items1 items2 : list (str * str)) :
  UploadFunction.lowercase_keys w (items1 ++ items2)
  = foldl (λ m kv, <[UploadFunction.lower w kv.1 := kv.2]> m)
          (UploadFunction.lowercase_keys w items1) items2.
Proof. unfold UploadFunction.lowercase_keys. apply foldl_app. Qed.

Lemma lowercase_keys_untouched (w : UploadFunction.world)
    (m : gmap str str) (items : list (str * str)) (key : str) :
  (∀ kv, kv ∈ items → UploadFunction.lower w kv.1 ≠ key) →
  foldl (λ m kv, <[UploadFunction.lower w kv.1 := kv.2]> m) m items !! key
  = m !! key.
Proof.
  revert m. induction items as [|kv items IH]; intros m Hne; simpl; [done|].
  rewrite IH by (intros kv' Hkv'; apply Hne; by right).
  apply lookup_insert_ne, Hne. by left.
Qed.

(** X7. The headers are looked up by their lower-cased names: a header
    whose name lower-cases to [content-type] gives the content type,
    however it is capitalised, and of several such headers the last one
    counts. *)
Theorem content_type_lookup_ignores_case
    (w : UploadFunction.world) (before after : list (str * str))
    (k v : str) :
  UploadFunction.lower w k = slit "content-type" →
  (∀ kv, kv ∈ after → UploadFunction.lower w kv.1 ≠ slit "content-type") →
  UploadFunction.lowercase_keys w (before ++ (k, v) :: after)
    !! slit "content-type"
  = Some v.
Proof.
  intros Hk Hafter. rewrite lowercase_keys_app. simpl.
  rewrite lowercase_keys_untouched by done.
  rewrite Hk. apply lookup_insert_eq.
Qed.

Lemma content_type_lookup_ignores_case_witness :
  UploadFunction.lowercase_keys upload_world
    ([(slit "content-type", ct_plain)]
     ++ (slit "CONTENT-Type", ct_B) :: [(slit "Accept", slit "*/*")])
    !! slit "content-type"
  = Some ct_B.
Proof.
  apply (content_type_lookup_ignores_case upload_world).
  - vm_compute. reflexivity.
  - intros kv Hkv%list_elem_of_singleton. subst kv. vm_compute. discriminate.
Defined.

(** The outcomes of [UploadFunction.handle], path by path. *)
Lemma upload_handle_cases w ev :
  match UploadFunction.handle w ev with
  | inr r =>
      ∃ b ct fields log fname content bucket,
        upload_request w ev b ct
        ∧ parse_multipart_form_data b ct = inr (fields, log)
        ∧ fields !! slit "file" = Some (FileField fname content)
        ∧ content ≠ []
        ∧ UploadFunction.environ_INPUT_BUCKET w = Some bucket
        ∧ UploadFunction.s3_put_object w bucket
            (UploadFunction.strftime_now w ++ slit "_"
             ++ take 4 (UploadFunction.uuid4 w) ++ slit ".mp3") content
          = None
        ∧ r = {| statusCode := 200;
                 body := Uploaded
                           (UploadFunction.strftime_now w ++ slit "_"
                            ++ take 4 (UploadFunction.uuid4 w)
                            ++ slit ".mp3") |}
  | inl _ => True
  end.
Proof.
  unfold UploadFunction.handle.
  destruct (UploadFunction.ev_body ev) as [text|] eqn:Hbody; simpl; [|done].
  destruct (str_encode text) as [|b] eqn:Henc; simpl; [done|].
  destruct (UploadFunction.ev_headers ev) as [items|] eqn:Hh; simpl; [|done].
  destruct (UploadFunction.lowercase_keys w items !! slit "content-type")
    as [[|c ct]|] eqn:Hct; simpl; [done| |done].
  destruct (parse_multipart_form_data b (c :: ct)) as [|[fields log]] eqn:Hp;
    simpl; [done|].
  destruct (fields !! slit "file") as [[|fname [|x content]]|] eqn:Hf;
    simpl; [done..| |done].
  destruct (UploadFunction.environ_INPUT_BUCKET w) as [bucket|] eqn:Henv;
    simpl; [|done].
  destruct (UploadFunction.s3_put_object w bucket _ (x :: content))
    as [e|] eqn:Hput; simpl; [done|].
  exists b, (c :: ct), fields, log, fname, (x :: content), bucket.
  split_and!; try done.
  by exists text, items.
Qed.

(** X8. The upload handler answers with status 200 or 500 and nothing
    else. It answers 200 exactly when the event has a body and a
    non-empty content type, the decoder returns a dictionary whose [file]
    entry is a file record with content, the bucket is configured and the
    storage call does not raise; the body of the answer then names the
    key made of the time stamp, the first four characters of the uuid and
    the extension [.mp3]. *)
Theorem upload_succeeds_exactly_when
    (w : UploadFunction.world) (ev : UploadFunction.event) :
  let key := UploadFunction.strftime_now w ++ slit "_"
             ++ take 4 (UploadFunction.uuid4 w) ++ slit ".mp3" in
  (statusCode (UploadFunction.lambda_handler w ev) = 200%Z
   ∨ statusCode (UploadFunction.lambda_handler w ev) = 500%Z)
  ∧ (statusCode (UploadFunction.lambda_handler w ev) = 200%Z
     ↔ ∃ b ct fields log fname content bucket,
         upload_request w ev b ct
         ∧ parse_multipart_form_data b ct = inr (fields, log)
         ∧ fields !! slit "file" = Some (FileField fname content)
         ∧ content ≠ []
         ∧ UploadFunction.environ_INPUT_BUCKET w = Some bucket
         ∧ UploadFunction.s3_put_object w bucket key content = None)
  ∧ (statusCode (UploadFunction.lambda_handler w ev) = 200%Z →
     body (UploadFunction.lambda_handler w ev) = Uploaded key).
Proof.
  intros key. pose proof (upload_handle_cases w ev) as Hcases.
  assert (key = UploadFunction.strftime_now w ++ slit "_"
                ++ take 4 (UploadFunction.uuid4 w) ++ slit ".mp3") as Hkey
    by reflexivity.
  clearbody key. rewrite <- !Hkey in Hcases.
  unfold UploadFunction.lambda_handler.
  destruct (UploadFunction.handle w ev) as [e|r] eqn:Hh.
  - simpl. split_and!; [by right | | done].
    split; [done|].
    intros (b & ct & fields & log & fname & content & bucket
            & (text & items & Hbody & Henc & Hhd & Hct & Hne)
            & Hp & Hf & Hc & Henv & Hput).
    unfold UploadFunction.handle in Hh. rewrite <- Hkey in Hh.
    rewrite Hbody, Hhd in Hh. simpl in Hh. rewrite Henc in Hh. simpl in Hh.
    rewrite Hct in Hh. destruct ct as [|c ct]; [done|].
    rewrite Hp in Hh. simpl in Hh. rewrite Hf in Hh.
    destruct content as [|x content]; [done|].
    rewrite Henv in Hh. simpl in Hh. by rewrite Hput in Hh.
  - destruct Hcases as (b & ct & fields & log & fname & content & bucket
                        & Hreq & Hp & Hf & Hc & Henv & Hput & ->).
    simpl. split_and!; [by left | | done].
    split; [|done]. intros _.
    by exists b, ct, fields, log, fname, content, bucket.
Qed.

(** ** The calls of the upload handler *)

Lemma service_calls_app es1 es2 :
  service_calls (es1 ++ es2) = service_calls es1 ++ service_calls es2.
Proof. apply filter_app. Qed.

Lemma service_calls_print_errors (log : list exn) :
  service_calls (print_errors log) = [].
Proof. induction log as [|e log IH]; [done|]. exact IH. Qed.

Ltac upload_fails tr :=
  left; eexists _, tr; split_and!;
  [ reflexivity
  | simpl; rewrite ?app_nil_r, <- ?(assoc_L (++)); reflexivity
  | rewrite ?service_calls_app, ?service_calls_print_errors ].

Lemma upload_trace_cases w t ev :
  (∃ e tr,
     UploadFunction.handle w ev = inl e
     ∧ Effects.upload_handler w t ev
       = (tr ++ [Print (HandlerError e)],
          {| statusCode := 500; body := Failure "Error: " e |})
     ∧ (service_calls tr = []
        ∨ ∃ bucket fname content log,
            upload_validated w ev bucket fname content log
            ∧ service_calls tr
              = [S3PutObject bucket (upload_key w) content "audio/mpeg"
                   (Some (Effects.s3_metadata_time t))]
            ∧ UploadFunction.s3_put_object w bucket (upload_key w) content
              = Some e))
  ∨ (∃ bucket fname content log,
       upload_validated w ev bucket fname content log
       ∧ UploadFunction.s3_put_object w bucket (upload_key w) content = None
       ∧ UploadFunction.handle w ev
         = inr {| statusCode := 200; body := Uploaded (upload_key w) |}
       ∧ Effects.upload_handler w t ev
         = (print_errors log
            ++ [Print (FileName fname);
                Print (FileContentLength (length content));
                S3PutObject bucket (upload_key w) content "audio/mpeg"
                  (Some (Effects.s3_metadata_time t));
                Print (FileUploaded (upload_key w))]
            ++ Effects.log_upload_metadata t (upload_key w) fname,
            {| statusCode := 200; body := Uploaded (upload_key w) |})).
Proof.
  unfold Effects.upload_handler, Effects.upload_try, UploadFunction.handle,
    upload_validated.
  change (UploadFunction.strftime_now w ++ slit "_"
          ++ take 4 (UploadFunction.uuid4 w) ++ slit ".mp3")
    with (upload_key w).
  generalize (upload_key w). intros key.
  destruct (UploadFunction.ev_body ev) as [text|] eqn:Hbody; simpl;
    [|upload_fails (@nil effect); by left].
  destruct (str_encode text) as [|b] eqn:Henc; simpl;
    [upload_fails (@nil effect); by left|].
  destruct (UploadFunction.ev_headers ev) as [items|] eqn:Hh; simpl;
    [|upload_fails (@nil effect); by left].
  destruct (UploadFunction.lowercase_keys w items !! slit "content-type")
    as [[|c ct]|] eqn:Hct; simpl;
    [upload_fails (@nil effect); by left|
    |upload_fails (@nil effect); by left].
  destruct (parse_multipart_form_data b (c :: ct)) as [|[fields log]] eqn:Hp;
    simpl; [upload_fails (@nil effect); by left|].
  destruct (fields !! slit "file") as [[|fname [|x content]]|] eqn:Hf; simpl;
    [upload_fails (print_errors log); by left
    |upload_fails (print_errors log); by left
    |
    |upload_fails (print_errors log); by left].
  destruct (UploadFunction.environ_INPUT_BUCKET w) as [bucket|] eqn:Henv;
    simpl.
  2:{ upload_fails (print_errors log
                    ++ [Print (FileName fname);
                        Print (FileContentLength (S (length content)))]).
      simpl. by left. }
  assert (upload_request w ev b (c :: ct)) as Hreq by by exists text, items.
  destruct (UploadFunction.s3_put_object w bucket key (x :: content))
    as [e|] eqn:Hput; simpl.
  - upload_fails (print_errors log
                  ++ [Print (FileName fname);
                      Print (FileContentLength (S (length content)));
                      S3PutObject bucket key (x :: content) "audio/mpeg"
                        (Some (Effects.s3_metadata_time t))]).
    simpl. right. exists bucket, fname, (x :: content), log.
    split_and!; [|done..]. by exists b, (c :: ct), fields.
  - right. exists bucket, fname, (x :: content), log.
    split_and!; try done.
    + by exists b, (c :: ct), fields.
    + by rewrite ?app_nil_r, <- ?(assoc_L (++)).
Qed.

Lemma service_calls_log_upload_metadata t key fname :
  service_calls (Effects.log_upload_metadata t key fname)
  = [TablePutItem (upload_item t key fname)].
Proof.
  unfold Effects.log_upload_metadata. fold (upload_item t key fname).
  by destruct (Effects.table_put_item t _).
Qed.

Lemma upload_request_unique w ev b ct b' ct' :
  upload_request w ev b ct → upload_request w ev b' ct' → b = b' ∧ ct = ct'.
Proof.
  intros (text & items & Hb & He & Hh & Hc & _)
         (text' & items' & Hb' & He' & Hh' & Hc' & _).
  rewrite Hb in Hb'. injection Hb' as <-.
  rewrite Hh in Hh'. injection Hh' as <-.
  rewrite He in He'. rewrite Hc in Hc'. by simplify_eq.
Qed.

(** X9. When the upload handler answers 200 it has made two calls, in
    this order: one [put_object] with the configured bucket, the
    generated key, the content of the decoded [file] record (which is not
    empty) and the type [audio/mpeg], then one [put_item] with the same
    key, the filename of the record, status [uploaded] and stage
    [upload]; the answer names the same key. *)
Theorem upload_success_calls
    (w : UploadFunction.world) (t : Effects.table)
    (ev : UploadFunction.event) :
  statusCode (Effects.upload_handler w t ev).2 = 200%Z →
  ∃ bucket fname content log,
    upload_validated w ev bucket fname content log
    ∧ service_calls (Effects.upload_handler w t ev).1
      = [S3PutObject bucket (upload_key w) content "audio/mpeg"
           (Some (Effects.s3_metadata_time t));
         TablePutItem (upload_item t (upload_key w) fname)]
    ∧ (Effects.upload_handler w t ev).2
      = {| statusCode := 200; body := Uploaded (upload_key w) |}.
Proof.
  destruct (upload_trace_cases w t ev)
    as [(e & tr & _ & -> & _)
       |(bucket & fname & content & log & Hval & _ & _ & ->)]; [done|].
  intros _. exists bucket, fname, content, log. split_and!; [done| |done].
  cbn [fst snd]. rewrite !service_calls_app, service_calls_print_errors.
  by rewrite service_calls_log_upload_metadata.
Qed.

(** X10. When the upload handler answers 500 nothing is written to the
    table, and the storage was either not called at all or called once,
    after every check had passed, with a [put_object] that raised the
    exception reported in the answer. *)
Theorem upload_failure_calls
    (w : UploadFunction.world) (t : Effects.table)
    (ev : UploadFunction.event) :
  statusCode (Effects.upload_handler w t ev).2 = 500%Z →
  ∃ e,
    (Effects.upload_handler w t ev).2
    = {| statusCode := 500; body := Failure "Error: " e |}
    ∧ (service_calls (Effects.upload_handler w t ev).1 = []
       ∨ ∃ bucket fname content log,
           upload_validated w ev bucket fname content log
           ∧ service_calls (Effects.upload_handler w t ev).1
             = [S3PutObject bucket (upload_key w) content "audio/mpeg"
                  (Some (Effects.s3_metadata_time t))]
           ∧ UploadFunction.s3_put_object w bucket (upload_key w) content
             = Some e).
Proof.
  destruct (upload_trace_cases w t ev)
    as [(e & tr & _ & -> & Hcalls)
       |(bucket & fname & content & log & _ & _ & _ & ->)]; [|done].
  intros _. exists e. split; [done|]. simpl.
  rewrite service_calls_app. simpl. by rewrite app_nil_r.
Qed.

(** X11. The answer of the upload handler is the same whatever
    [put_item] does and whatever the clock shows in
    [log_upload_metadata]: a failed metadata write is never reported to
    the caller. *)
Theorem metadata_failure_is_not_reported
    (w : UploadFunction.world) (t t' : Effects.table)
    (ev : UploadFunction.event) :
  (Effects.upload_handler w t ev).2 = (Effects.upload_handler w t' ev).2
  ∧ (Effects.upload_handler w t ev).2 = UploadFunction.lambda_handler w ev.
Proof.
  assert (∀ t0, (Effects.upload_handler w t0 ev).2
                = UploadFunction.lambda_handler w ev) as Hsame.
  { intros t0. unfold UploadFunction.lambda_handler.
    destruct (upload_trace_cases w t0 ev)
      as [(e & tr & -> & -> & _)
         |(bucket & fname & content & log & _ & _ & -> & ->)]; done. }
  split; [by rewrite !Hsame | apply Hsame].
Qed.

(** X12. A request that lacks a parameter (no boundary, no [file] field,
    a [file] field without content) reaches no service: neither the
    storage nor the table is called. *)
Theorem missing_parameter_makes_no_call
    (w : UploadFunction.world) (t : Effects.table)
    (ev : UploadFunction.event) (b : bytes) (ct : str) :
  upload_request w ev b ct →
  missing_parameter b ct →
  service_calls (Effects.upload_handler w t ev).1 = [].
Proof.
  intros Hreq Hmiss.
  assert (∀ bucket fname content log,
            ¬ upload_validated w ev bucket fname content log) as Hnot.
  { intros bucket fname content log (b' & ct' & fields & Hreq' & Hp & Hf & Hc & _).
    destruct (upload_request_unique _ _ _ _ _ _ Hreq Hreq') as [<- <-].
    destruct Hmiss as [Hnb | (fields' & log' & Hp' & Hfile)].
    - by rewrite (missing_boundary_raises _ _ Hnb) in Hp.
    - rewrite Hp in Hp'. injection Hp' as <- <-.
      destruct Hfile as [Hnone | [name Hempty]]; [congruence|].
      rewrite Hf in Hempty. by injection Hempty as _ ->. }
  destruct (upload_trace_cases w t ev)
    as [(e & tr & _ & -> & Hcalls)
       |(bucket & fname & content & log & Hval & _)].
  - simpl. rewrite service_calls_app. simpl. rewrite app_nil_r.
    destruct Hcalls as [Hnil | (bucket & fname & content & log & Hval & _)];
      [done|]. by destruct (Hnot _ _ _ _ Hval).
  - by destruct (Hnot _ _ _ _ Hval).
Qed.

Lemma upload_success_calls_witness :
  ∃ bucket fname content log,
    upload_validated upload_world (upload_event ex_body ct_B)
      bucket fname content log
    ∧ service_calls
        (Effects.upload_handler upload_world table_down
           (upload_event ex_body ct_B)).1
      = [S3PutObject bucket (upload_key upload_world) content "audio/mpeg"
           (Some (Effects.s3_metadata_time table_down));
         TablePutItem (upload_item table_down (upload_key upload_world) fname)]
    ∧ (Effects.upload_handler upload_world table_down
         (upload_event ex_body ct_B)).2
      = {| statusCode := 200; body := Uploaded (upload_key upload_world) |}.
Proof.
  apply (upload_success_calls upload_world table_down
           (upload_event ex_body ct_B)).
  vm_compute. reflexivity.
Defined.

Lemma upload_failure_calls_witness :
  ∃ e,
    (Effects.upload_handler upload_world_s3_down table_down
       (upload_event ex_body ct_B)).2
    = {| statusCode := 500; body := Failure "Error: " e |}
    ∧ (service_calls
         (Effects.upload_handler upload_world_s3_down table_down
            (upload_event ex_body ct_B)).1 = []
       ∨ ∃ bucket fname content log,
           upload_validated upload_world_s3_down (upload_event ex_body ct_B)
             bucket fname content log
           ∧ service_calls
               (Effects.upload_handler upload_world_s3_down table_down
                  (upload_event ex_body ct_B)).1
             = [S3PutObject bucket (upload_key upload_world_s3_down) content
                  "audio/mpeg" (Some (Effects.s3_metadata_time table_down))]
           ∧ UploadFunction.s3_put_object upload_world_s3_down bucket
               (upload_key upload_world_s3_down) content
             = Some e).
Proof.
  apply (upload_failure_calls upload_world_s3_down table_down
           (upload_event ex_body ct_B)).
  vm_compute. reflexivity.
Defined.

Lemma missing_parameter_makes_no_call_witness :
  service_calls
    (Effects.upload_handler upload_world table_down
       (upload_event body_no_file ct_B)).1 = [].
Proof.
  apply (missing_parameter_makes_no_call upload_world table_down
           (upload_event body_no_file ct_B) body_no_file ct_B).
  - apply upload_request_event; [vm_compute; reflexivity | discriminate].
  - right. exists {[ slit "note" := Plain (slit "hello") ]}, [].
    split; [vm_compute; reflexivity | left; vm_compute; reflexivity].
Defined.

Example ex_upload_trace :
  Effects.upload_handler upload_world table_down (upload_event ex_body ct_B)
  = ([Print (FileName (slit "a.mp3"));
      Print (FileContentLength 8);
      S3PutObject (slit "input-bucket") (slit "20240101T000000Z_1b4e.mp3")
        (blit "ID3 data") "audio/mpeg"
        (Some (slit "2024-01-01T00:00:00+00:00"));
      Print (FileUploaded (slit "20240101T000000Z_1b4e.mp3"));
      TablePutItem
        {| file_key := slit "20240101T000000Z_1b4e.mp3";
           original_filename := slit "a.mp3";
           status := "uploaded";
           upload_time := slit "2024-01-01T00:00:01+00:00";
           stage := "upload" |};
      Print (MetadataWarning (ServiceError "table unavailable"))],
     {| statusCode := 200;
        body := Uploaded (slit "20240101T000000Z_1b4e.mp3") |}).
Proof. vm_compute. reflexivity. Qed.

(** * More on the speech handler *)

Lemma polly_handler_raise w ev tr e :
  Effects.polly_try w ev = (tr, inl e) →
  Effects.polly_handler w ev
  = (tr ++ [Print (speech_failure_line e)], speech_failure e).
Proof.
  intros Htry. unfold Effects.polly_handler. rewrite Htry. simpl.
  by destruct e.
Qed.

Lemma polly_trace_cases w ev :
  (missing_key ev
   ∧ ∃ key, Effects.polly_handler w ev
            = ([Print (MissingKey (KeyError key))],
               speech_failure (KeyError key)))
  ∨ ∃ text bname given,
      speech_request ev text bname given
      ∧ ((∃ e, (PollyFunction.polly_synthesize_speech w text = inl e
                ∨ PollyFunction.polly_synthesize_speech w text
                  = inr (Some (inl e)))
               ∧ Effects.polly_handler w ev
                 = ([synthesize_call text; Print (speech_failure_line e)],
                    speech_failure e))
         ∨ (PollyFunction.polly_synthesize_speech w text = inr None
            ∧ Effects.polly_handler w ev
              = ([synthesize_call text; Print NoAudioStream],
                 {| statusCode := 500;
                    body := Message "No AudioStream found in Polly response." |}))
         ∨ (∃ audio e,
              speech_synthesized w text audio
              ∧ PollyFunction.s3_put_object w PollyFunction.output_bucket_name
                  (speech_key w given) audio = Some e
              ∧ Effects.polly_handler w ev
                = ([synthesize_call text; store_audio_call w given audio;
                    Print (speech_failure_line e)],
                   speech_failure e))
         ∨ (∃ audio,
              speech_synthesized w text audio
              ∧ PollyFunction.s3_put_object w PollyFunction.output_bucket_name
                  (speech_key w given) audio = None
              ∧ Effects.polly_handler w ev
                = ([synthesize_call text; store_audio_call w given audio;
                    Print (AudioSaved PollyFunction.output_bucket_name
                             (speech_key w given))],
                   {| statusCode := 200;
                      body := Saved PollyFunction.output_bucket_name
                                (speech_key w given) |}))).
Proof.
  unfold missing_key, speech_request, speech_synthesized, store_audio_call,
    speech_key, synthesize_call, Effects.polly_handler, Effects.polly_try.
  generalize (PollyFunction.uuid4 w ++ slit "_speech.mp3")
             PollyFunction.output_bucket_name.
  intros dflt ob.
  destruct (PollyFunction.translated_text ev) as [text|]; cbn;
    [|left; split; [by left | by eexists]].
  destruct (PollyFunction.bucket ev) as [bname|]; cbn;
    [|left; split; [by right; left | by eexists]].
  destruct (PollyFunction.output_file ev) as [given|]; cbn;
    [|left; split; [by right; right | by eexists]].
  right. exists text, bname, given. split; [done|].
  destruct (PollyFunction.polly_synthesize_speech w text)
    as [e|[[e|audio]|]]; cbn.
  - left. exists e. split; [by left | by destruct e].
  - left. exists e. split; [by right | by destruct e].
  - destruct (PollyFunction.s3_put_object w ob
                (PollyFunction.or_else given dflt) audio) as [e|] eqn:Hput;
      cbn.
    + right. right. left. exists audio, e. split_and!; [done..|].
      by destruct e.
    + right. right. right. by exists audio.
  - right. left. by split.
Qed.

Lemma polly_handler_response w ev :
  (Effects.polly_handler w ev).2 = PollyFunction.lambda_handler w ev.
Proof.
  unfold Effects.polly_handler, Effects.polly_try,
    PollyFunction.lambda_handler, PollyFunction.handle.
  destruct (PollyFunction.translated_text ev) as [text|]; simpl; [|done].
  destruct (PollyFunction.bucket ev) as [bname|]; simpl; [|done].
  destruct (PollyFunction.output_file ev) as [given|]; simpl; [|done].
  destruct (PollyFunction.polly_synthesize_speech w text)
    as [e|[[e|audio]|]]; simpl; [by destruct e | by destruct e | | done].
  destruct (PollyFunction.s3_put_object w _ _ audio) as [e|]; simpl;
    [by destruct e | done].
Qed.

Lemma speech_failure_status e :
  statusCode (speech_failure e) = 400%Z ∧ (∃ key, e = KeyError key)
  ∨ statusCode (speech_failure e) = 500%Z ∧ (∀ key, e ≠ KeyError key).
Proof. destruct e; try (by right); left; by eauto. Qed.

(** X13. The speech handler answers with status 200, 400 or 500. It
    answers 200 exactly when the event has its three keys, Polly returns
    an audio stream that can be read and the storage call does not raise;
    it answers 400 exactly when a [KeyError] reaches the handler: a key is
    absent from the event, or one of the service calls raises a
    [KeyError] of its own. *)
Theorem speech_status
    (w : PollyFunction.world) (ev : PollyFunction.event) :
  (statusCode (PollyFunction.lambda_handler w ev) = 200%Z
   ∨ statusCode (PollyFunction.lambda_handler w ev) = 400%Z
   ∨ statusCode (PollyFunction.lambda_handler w ev) = 500%Z)
  ∧ (statusCode (PollyFunction.lambda_handler w ev) = 200%Z
     ↔ ∃ text bname given audio,
         speech_request ev text bname given
         ∧ speech_synthesized w text audio
         ∧ PollyFunction.s3_put_object w PollyFunction.output_bucket_name
             (speech_key w given) audio = None)
  ∧ (statusCode (PollyFunction.lambda_handler w ev) = 400%Z
     ↔ missing_key ev
       ∨ ∃ text bname given key,
           speech_request ev text bname given
           ∧ speech_call_raises w text given (KeyError key)).
Proof.
  rewrite <- (polly_handler_response w ev).
  assert (∀ text bname given text' bname' given',
            speech_request ev text bname given →
            speech_request ev text' bname' given' →
            text' = text ∧ given' = given) as Hsame.
  { intros ?????? (H1 & H2 & H3) (H1' & H2' & H3').
    rewrite H1 in H1'. rewrite H3 in H3'. by simplify_eq. }
  assert (∀ text bname given,
            speech_request ev text bname given → ¬ missing_key ev) as Hkeys.
  { intros ??? (H1 & H2 & H3) [H|[H|H]]; congruence. }
  destruct (polly_trace_cases w ev)
    as [[Hmiss [key ->]]
       |(text & bname & given & Hreq
         & [(e & He & ->)
           |[[Hnone ->]
            |[(audio & e & Hsyn & Hput & ->)
             |(audio & Hsyn & Hput & ->)]]])]; cbn [snd].
  - simpl. split_and!; [by right; left | |].
    + split; [done|]. intros (text & bname & given & audio & Hreq & _).
      by destruct (Hkeys _ _ _ Hreq).
    + split; [by left | done].
  - destruct (speech_failure_status e) as [[Hs [key ->]] | [Hs Hne]];
      rewrite Hs; split_and!; try (by right; left); try (by right; right).
    + split; [done|]. intros (text' & bname' & given' & audio & Hreq' & Hsyn & _).
      destruct (Hsame _ _ _ _ _ _ Hreq Hreq') as [-> ->].
      unfold speech_synthesized in Hsyn. destruct He; congruence.
    + split; [|done]. intros _. right. exists text, bname, given, key.
      split; [done|]. destruct He; [by left | by right; left].
    + split; [done|]. intros (text' & bname' & given' & audio & Hreq' & Hsyn & _).
      destruct (Hsame _ _ _ _ _ _ Hreq Hreq') as [-> ->].
      unfold speech_synthesized in Hsyn. destruct He; congruence.
    + split; [done|].
      intros [Hmiss | (text' & bname' & given' & key & Hreq' & Hraise)];
        [by destruct (Hkeys _ _ _ Hreq)|].
      destruct (Hsame _ _ _ _ _ _ Hreq Hreq') as [-> ->].
      destruct Hraise as [Hr | [Hr | (audio & Hsyn & _)]].
      * destruct He as [He|He]; rewrite He in Hr; simplify_eq;
          try by destruct (Hne key).
      * destruct He as [He|He]; rewrite He in Hr; simplify_eq;
          try by destruct (Hne key).
      * unfold speech_synthesized in Hsyn. destruct He; congruence.
  - simpl. split_and!; [by right; right | |].
    + split; [done|]. intros (text' & bname' & given' & audio & Hreq' & Hsyn & _).
      destruct (Hsame _ _ _ _ _ _ Hreq Hreq') as [-> ->].
      unfold speech_synthesized in Hsyn. congruence.
    + split; [done|].
      intros [Hmiss | (text' & bname' & given' & key & Hreq' & Hraise)];
        [by destruct (Hkeys _ _ _ Hreq)|].
      destruct (Hsame _ _ _ _ _ _ Hreq Hreq') as [-> ->].
      unfold speech_synthesized in *.
      destruct Hraise as [Hr | [Hr | (audio & Hsyn & _)]]; congruence.
  - assert (∀ audio', speech_synthesized w text audio' → audio' = audio)
      as Haudio.
    { unfold speech_synthesized in *. intros audio' Ha. congruence. }
    destruct (speech_failure_status e) as [[Hs [key ->]] | [Hs Hne]];
      rewrite Hs; split_and!; try (by right; left); try (by right; right).
    + split; [done|]. intros (text' & bname' & given' & audio' & Hreq' & Hsyn' & Hput').
      destruct (Hsame _ _ _ _ _ _ Hreq Hreq') as [-> ->].
      rewrite (Haudio _ Hsyn') in Hput'. congruence.
    + split; [|done]. intros _. right. exists text, bname, given, key.
      split; [done|]. right. right. by exists audio.
    + split; [done|]. intros (text' & bname' & given' & audio' & Hreq' & Hsyn' & Hput').
      destruct (Hsame _ _ _ _ _ _ Hreq Hreq') as [-> ->].
      rewrite (Haudio _ Hsyn') in Hput'. congruence.
    + split; [done|].
      intros [Hmiss | (text' & bname' & given' & key & Hreq' & Hraise)];
        [by destruct (Hkeys _ _ _ Hreq)|].
      destruct (Hsame _ _ _ _ _ _ Hreq Hreq') as [-> ->].
      unfold speech_synthesized in *.
      destruct Hraise as [Hr | [Hr | (audio' & Hsyn' & Hput')]];
        [congruence..|].
      assert (audio' = audio) as -> by congruence.
      rewrite Hput in Hput'. injection Hput' as ->. by destruct (Hne key).
  - simpl. split_and!; [by left | |].
    + split; [|done]. intros _. by exists text, bname, given, audio.
    + split; [done|].
      intros [Hmiss | (text' & bname' & given' & key & Hreq' & Hraise)];
        [by destruct (Hkeys _ _ _ Hreq)|].
      destruct (Hsame _ _ _ _ _ _ Hreq Hreq') as [-> ->].
      unfold speech_synthesized in *.
      destruct Hraise as [Hr | [Hr | (audio' & Hsyn' & Hput')]];
        [congruence..|].
      assert (audio' = audio) as -> by congruence. congruence.
Qed.

(** X14. The speech handler calls no service when a key is absent from
    the event. Otherwise it calls Polly once, with the text of the event,
    the format [mp3] and the voice [Joanna]; and it calls the storage, once
    and after Polly, exactly when Polly has answered with an audio stream
    that can be read: the audio goes to the fixed output bucket, under the
    name given in the event or, when that name is empty, under the uuid
    followed by [_speech.mp3]. *)
Theorem speech_calls (w : PollyFunction.world) (ev : PollyFunction.event) :
  (missing_key ev ∧ service_calls (Effects.polly_handler w ev).1 = [])
  ∨ ∃ text bname given,
      speech_request ev text bname given
      ∧ (((∀ audio, ¬ speech_synthesized w text audio)
          ∧ service_calls (Effects.polly_handler w ev).1
            = [PollySynthesizeSpeech text "mp3" "Joanna"])
         ∨ ∃ audio,
             speech_synthesized w text audio
             ∧ service_calls (Effects.polly_handler w ev).1
               = [PollySynthesizeSpeech text "mp3" "Joanna";
                  S3PutObject PollyFunction.output_bucket_name
                    (match given with
                     | [] => PollyFunction.uuid4 w ++ slit "_speech.mp3"
                     | _ :: _ => given
                     end)
                    audio "audio/mpeg" None]).
Proof.
  destruct (polly_trace_cases w ev)
    as [[Hmiss [key ->]]
       |(text & bname & given & Hreq
         & [(e & He & ->)
           |[[Hnone ->]
            |[(audio & e & Hsyn & Hput & ->)
             |(audio & Hsyn & Hput & ->)]]])].
  - left. by split.
  - right. exists text, bname, given. split; [done|]. left. split; [|done].
    intros audio Hsyn. unfold speech_synthesized in Hsyn.
    destruct He; congruence.
  - right. exists text, bname, given. split; [done|]. left. split; [|done].
    intros audio Hsyn. unfold speech_synthesized in Hsyn. congruence.
  - right. exists text, bname, given. split; [done|]. right. exists audio.
    split; [done|]. by destruct given.
  - right. exists text, bname, given. split; [done|]. right. exists audio.
    split; [done|]. by destruct given.
Qed.

(** X15. The speech handler requires the key [bucket] and never uses its
    value: two events that have the key and agree on the text and on the
    output name get the same calls, the same printed lines and the same
    answer. *)
Theorem speech_ignores_bucket
    (w : PollyFunction.world) (ev ev' : PollyFunction.event) :
  PollyFunction.translated_text ev = PollyFunction.translated_text ev' →
  PollyFunction.output_file ev = PollyFunction.output_file ev' →
  is_Some (PollyFunction.bucket ev) →
  is_Some (PollyFunction.bucket ev') →
  Effects.polly_handler w ev = Effects.polly_handler w ev'.
Proof.
  intros Ht Ho [b Hb] [b' Hb'].
  unfold Effects.polly_handler, Effects.polly_try.
  rewrite <- Ht, <- Ho, Hb, Hb'.
  by destruct (PollyFunction.translated_text ev).
Qed.

Lemma speech_ignores_bucket_witness :
  Effects.polly_handler polly_world polly_event_ok
  = Effects.polly_handler polly_world
      {| PollyFunction.translated_text := Some (slit "hello");
         PollyFunction.bucket := Some (slit "another-bucket");
         PollyFunction.output_file := Some (slit "out.mp3") |}.
Proof.
  apply (speech_ignores_bucket polly_world polly_event_ok); try reflexivity;
    by eexists.
Defined.

Example ex_polly_key_error_in_service :
  Effects.polly_handler polly_world_key_error polly_event_ok
  = ([PollySynthesizeSpeech (slit "hello") "mp3" "Joanna";
      Print (MissingKey (KeyError "Engine"))],
     {| statusCode := 400;
        body := Failure "Missing key: " (KeyError "Engine") |}).
Proof. vm_compute. reflexivity. Qed.

(** * UTF-8: encoding, then decoding *)

Lemma to_N_byte_of_N n : n <= 255 → Byte.to_N (byte_of_N n) = n.
Proof.
  intros Hn. unfold byte_of_N.
  pose proof (Byte.to_of_N_option_map n) as Hmap.
  rewrite (proj2 (N.leb_le n 255) Hn) in Hmap.
  destruct (Byte.of_N n) as [b|]; [|done]. simpl in Hmap. congruence.
Qed.

Ltac decide_tests :=
  unfold in_range;
  repeat (match goal with
          | |- context [?x =? ?y] =>
              first [ rewrite (proj2 (N.eqb_eq x y)) by lia
                    | rewrite (proj2 (N.eqb_neq x y)) by lia ]
          | |- context [?x <? ?y] =>
              first [ rewrite (proj2 (N.ltb_lt x y)) by lia
                    | rewrite (proj2 (N.ltb_ge x y)) by lia ]
          | |- context [?x <=? ?y] =>
              first [ rewrite (proj2 (N.leb_le x y)) by lia
                    | rewrite (proj2 (N.leb_gt x y)) by lia ]
          end; cbv beta iota).

Lemma bytes_decode_1 b0 r :
  Byte.to_N b0 < 128 →
  bytes_decode (b0 :: r) = text_after (Byte.to_N b0) (bytes_decode r).
Proof. intros H0. simpl. by decide_tests. Qed.

Lemma bytes_decode_2 b0 b1 r :
  194 <= Byte.to_N b0 < 224 →
  128 <= Byte.to_N b1 <= 191 →
  bytes_decode (b0 :: b1 :: r)
  = text_after ((Byte.to_N b0 - 192) * 64 + (Byte.to_N b1 - 128))
               (bytes_decode r).
Proof. intros H0 H1. simpl. by decide_tests. Qed.

Lemma bytes_decode_3 b0 b1 b2 r :
  224 <= Byte.to_N b0 < 240 →
  128 <= Byte.to_N b1 <= 191 →
  (Byte.to_N b0 = 224 → 160 <= Byte.to_N b1) →
  (Byte.to_N b0 = 237 → Byte.to_N b1 <= 159) →
  128 <= Byte.to_N b2 <= 191 →
  bytes_decode (b0 :: b1 :: b2 :: r)
  = text_after ((Byte.to_N b0 - 224) * 4096 + (Byte.to_N b1 - 128) * 64
                + (Byte.to_N b2 - 128))
               (bytes_decode r).
Proof.
  intros H0 H1 Hlo Hhi H2. simpl.
  destruct (N.eq_dec (Byte.to_N b0) 224) as [He|He];
    destruct (N.eq_dec (Byte.to_N b0) 237) as [Hd|Hd];
    try specialize (Hlo He); try specialize (Hhi Hd);
    try (exfalso; lia); decide_tests; reflexivity.
Qed.

Lemma bytes_decode_4 b0 b1 b2 b3 r :
  240 <= Byte.to_N b0 < 245 →
  128 <= Byte.to_N b1 <= 191 →
  (Byte.to_N b0 = 240 → 144 <= Byte.to_N b1) →
  (Byte.to_N b0 = 244 → Byte.to_N b1 <= 143) →
  128 <= Byte.to_N b2 <= 191 →
  128 <= Byte.to_N b3 <= 191 →
  bytes_decode (b0 :: b1 :: b2 :: b3 :: r)
  = text_after ((Byte.to_N b0 - 240) * 262144 + (Byte.to_N b1 - 128) * 4096
                + (Byte.to_N b2 - 128) * 64 + (Byte.to_N b3 - 128))
               (bytes_decode r).
Proof.
  intros H0 H1 Hlo Hhi H2 H3. simpl.
  destruct (N.eq_dec (Byte.to_N b0) 240) as [He|He];
    destruct (N.eq_dec (Byte.to_N b0) 244) as [Hd|Hd];
    try specialize (Hlo He); try specialize (Hhi Hd);
    try (exfalso; lia); decide_tests; reflexivity.
Qed.

Ltac div_mod_facts c :=
  let q1 := fresh "q" in let r1 := fresh "r" in
  let q2 := fresh "q" in let r2 := fresh "r" in
  let q3 := fresh "q" in let r3 := fresh "r" in
  replace (c / 4096) with (c / 64 / 64) in *
    by (rewrite N.Div0.div_div; reflexivity);
  replace (c / 262144) with (c / 64 / 64 / 64) in *
    by (rewrite !N.Div0.div_div; reflexivity);
  pose proof (N.div_mod c 64 ltac:(lia));
  pose proof (N.mod_lt c 64 ltac:(lia));
  pose proof (N.div_mod (c / 64) 64 ltac:(lia));
  pose proof (N.mod_lt (c / 64) 64 ltac:(lia));
  pose proof (N.div_mod (c / 64 / 64) 64 ltac:(lia));
  pose proof (N.mod_lt (c / 64 / 64) 64 ltac:(lia));
  generalize dependent ((c / 64 / 64) mod 64); intros r3;
  generalize dependent (c / 64 / 64 / 64); intros q3;
  generalize dependent ((c / 64) mod 64); intros r2;
  generalize dependent (c / 64 / 64); intros q2;
  generalize dependent (c mod 64); intros r1;
  generalize dependent (c / 64); intros q1;
  intros.

(** One encoded character decodes to itself, whatever follows. *)
Lemma encode_char_decode c bs r :
  encode_char c = Some bs →
  bytes_decode (bs ++ r) = text_after c (bytes_decode r).
Proof.
  unfold encode_char.
  destruct (c <? 128) eqn:H1;
    [apply N.ltb_lt in H1 | apply N.ltb_ge in H1].
  { intros [= <-]. simpl app.
    rewrite bytes_decode_1; rewrite to_N_byte_of_N by lia; [done | lia]. }
  destruct (c <? 2048) eqn:H2;
    [apply N.ltb_lt in H2 | apply N.ltb_ge in H2].
  { intros [= <-]. simpl app.
    assert (192 + c / 64 <= 255 ∧ 128 + c mod 64 <= 255) as [Hb0 Hb1].
    { div_mod_facts c. lia. }
    rewrite bytes_decode_2; rewrite !to_N_byte_of_N by done.
    - f_equal. div_mod_facts c. lia.
    - div_mod_facts c. lia.
    - div_mod_facts c. lia. }
  destruct (c <? 65536) eqn:H3;
    [apply N.ltb_lt in H3 | apply N.ltb_ge in H3].
  { destruct ((55296 <=? c) && (c <=? 57343)) eqn:H4; [done|].
    assert (c < 55296 ∨ 57343 < c) as Hsur.
    { apply andb_false_iff in H4 as [H4|H4];
        [apply N.leb_gt in H4 | apply N.leb_gt in H4]; lia. }
    intros [= <-]. simpl app.
    assert (224 + c / 4096 <= 255 ∧ 128 + (c / 64) mod 64 <= 255
            ∧ 128 + c mod 64 <= 255) as (Hb0 & Hb1 & Hb2).
    { div_mod_facts c. lia. }
    rewrite bytes_decode_3; rewrite !to_N_byte_of_N by done.
    - f_equal. div_mod_facts c. lia.
    - div_mod_facts c. lia.
    - div_mod_facts c. lia.
    - div_mod_facts c. lia.
    - div_mod_facts c. lia.
    - div_mod_facts c. lia. }
  destruct (c <? 1114112) eqn:H4; [apply N.ltb_lt in H4 | done].
  intros [= <-]. simpl app.
  assert (240 + c / 262144 <= 255 ∧ 128 + (c / 4096) mod 64 <= 255
          ∧ 128 + (c / 64) mod 64 <= 255
          ∧ 128 + c mod 64 <= 255) as (Hb0 & Hb1 & Hb2 & Hb3).
  { div_mod_facts c. lia. }
  rewrite bytes_decode_4; rewrite !to_N_byte_of_N by done.
  - f_equal. div_mod_facts c. lia.
  - div_mod_facts c. lia.
  - div_mod_facts c. lia.
  - div_mod_facts c. lia.
  - div_mod_facts c. lia.
  - div_mod_facts c. lia.
  - div_mod_facts c. lia.
Qed.

Lemma str_encode_decode s b : str_encode s = inr b → bytes_decode b = inr s.
Proof.
  revert b. induction s as [|c s IH]; intros b; simpl.
  - by intros [= <-].
  - destruct (encode_char c) as [bs|] eqn:Hc; [|done].
    destruct (str_encode s) as [|rest]; [done|]. intros [= <-].
    by rewrite (encode_char_decode _ _ _ Hc), (IH rest).
Qed.

Lemma in_range_true lo hi x : in_range lo hi x = true → lo <= x <= hi.
Proof.
  unfold in_range. intros [H1 H2]%andb_prop.
  apply N.leb_le in H1. apply N.leb_le in H2. done.
Qed.

(** The first character of a text comes from a first group of bytes: a
    lead byte and continuation bytes, all of these from 128 on; the group
    decodes to the character whatever follows it. *)
Lemma bytes_decode_group b c s :
  bytes_decode b = inr (c :: s) →
  ∃ b0 more tl,
    b = b0 :: more ++ tl
    ∧ bytes_decode tl = inr s
    ∧ Forall (λ x, 128 <= Byte.to_N x) more
    ∧ (∀ r, bytes_decode (b0 :: more ++ r) = text_after c (bytes_decode r)).
Proof.
  destruct b as [|b0 r0]; [done|]. simpl.
  destruct (Byte.to_N b0 <? 128) eqn:H1.
  { destruct (bytes_decode r0) as [|s0] eqn:Hr; [done|]. intros [= <- <-].
    exists b0, [], r0. split_and!; [done..|].
    intros r. apply bytes_decode_1. by apply N.ltb_lt. }
  apply N.ltb_ge in H1.
  destruct (Byte.to_N b0 <? 194) eqn:H2; [done|]. apply N.ltb_ge in H2.
  destruct (Byte.to_N b0 <? 224) eqn:H3.
  { apply N.ltb_lt in H3. destruct r0 as [|b1 r1]; [done|].
    destruct (in_range 128 191 (Byte.to_N b1)) eqn:Hx1; [|done].
    apply in_range_true in Hx1.
    destruct (bytes_decode r1) as [|s1] eqn:Hr; [done|]. intros [= <- <-].
    exists b0, [b1], r1. split_and!; [done..| |].
    - repeat constructor. lia.
    - intros r. by apply bytes_decode_2. }
  apply N.ltb_ge in H3.
  destruct (Byte.to_N b0 <? 240) eqn:H4.
  { apply N.ltb_lt in H4. destruct r0 as [|b1 [|b2 r2]]; [done..|].
    destruct (in_range _ _ (Byte.to_N b1) && _) eqn:Hx; [|done].
    apply andb_prop in Hx as [Hx1%in_range_true Hx2%in_range_true].
    destruct (bytes_decode r2) as [|s2] eqn:Hr; [done|]. intros [= <- <-].
    exists b0, [b1; b2], r2.
    assert (128 <= Byte.to_N b1 <= 191
            ∧ (Byte.to_N b0 = 224 → 160 <= Byte.to_N b1)
            ∧ (Byte.to_N b0 = 237 → Byte.to_N b1 <= 159)) as (Hb1 & Hlo & Hhi).
    { destruct (Byte.to_N b0 =? 224) eqn:He;
        [apply N.eqb_eq in He | apply N.eqb_neq in He];
        destruct (Byte.to_N b0 =? 237) eqn:Hd;
        [apply N.eqb_eq in Hd | apply N.eqb_neq in Hd
        |apply N.eqb_eq in Hd | apply N.eqb_neq in Hd]; lia. }
    split_and!; [done..| |].
    - repeat constructor; lia.
    - intros r. by apply bytes_decode_3. }
  apply N.ltb_ge in H4.
  destruct (Byte.to_N b0 <? 245) eqn:H5; [|done]. apply N.ltb_lt in H5.
  destruct r0 as [|b1 [|b2 [|b3 r3]]]; [done..|].
  destruct (in_range _ _ (Byte.to_N b1) && _ && _) eqn:Hx; [|done].
  apply andb_prop in Hx as [[Hx1%in_range_true Hx2%in_range_true]%andb_prop
                            Hx3%in_range_true].
  destruct (bytes_decode r3) as [|s3] eqn:Hr; [done|]. intros [= <- <-].
  exists b0, [b1; b2; b3], r3.
  assert (128 <= Byte.to_N b1 <= 191
          ∧ (Byte.to_N b0 = 240 → 144 <= Byte.to_N b1)
          ∧ (Byte.to_N b0 = 244 → Byte.to_N b1 <= 143)) as (Hb1 & Hlo & Hhi).
  { destruct (Byte.to_N b0 =? 240) eqn:He;
      [apply N.eqb_eq in He | apply N.eqb_neq in He];
      destruct (Byte.to_N b0 =? 244) eqn:Hd;
      [apply N.eqb_eq in Hd | apply N.eqb_neq in Hd
      |apply N.eqb_eq in Hd | apply N.eqb_neq in Hd]; lia. }
  split_and!; [done..| |].
  - repeat constructor; lia.
  - intros r. by apply bytes_decode_4.
Qed.

(** Decoding goes through a concatenation when the first half is text. *)
Lemma bytes_decode_app d s r :
  bytes_decode d = inr s →
  bytes_decode (d ++ r)
  = match bytes_decode r with
    | inr t => inr (s ++ t)
    | inl e => inl e
    end.
Proof.
  revert d. induction s as [|c s IH]; intros d Hd.
  - apply bytes_decode_nil in Hd as ->. simpl. by destruct (bytes_decode r).
  - apply bytes_decode_group in Hd as (b0 & more & tl & -> & Htl & _ & Hgroup).
    change ((b0 :: more ++ tl) ++ r) with (b0 :: (more ++ tl) ++ r).
    rewrite <- (assoc_L (++)), Hgroup, (IH _ Htl).
    by destruct (bytes_decode r).
Qed.

Lemma utf8_app d r : utf8 d → utf8 r → utf8 (d ++ r).
Proof.
  intros [s Hs] [t Ht]. exists (s ++ t).
  by rewrite (bytes_decode_app _ _ _ Hs), Ht.
Qed.

Lemma utf8_app_inv_r d r : utf8 d → utf8 (d ++ r) → utf8 r.
Proof.
  intros [s Hs] [t Ht]. rewrite (bytes_decode_app _ _ _ Hs) in Ht.
  destruct (bytes_decode r) as [|u] eqn:Hr; [done|]. by exists u.
Qed.

(** A text can be cut in front of an ASCII byte: both sides are texts. *)
Lemma utf8_cut x y : utf8 (x ++ y) → starts_ascii y → utf8 x ∧ utf8 y.
Proof.
  intros [s Hs] Hy. revert x Hs. induction s as [|c s IH]; intros x Hs.
  - apply bytes_decode_nil in Hs. apply app_eq_nil in Hs as [-> ->].
    split; by exists [].
  - destruct x as [|b x].
    { split; [by exists [] | by exists (c :: s)]. }
    apply bytes_decode_group in Hs as (b0 & more & tl & Heq & Htl & Hmore & Hgroup).
    simpl in Heq. injection Heq as <- Heq.
    apply app_eq_inv in Heq as [(k & Hx & Htl')|(k & Hm & Hy')].
    + subst x tl. destruct (IH _ Htl) as [[sk Hk] Huy]. split; [|done].
      exists (c :: sk). by rewrite Hgroup, Hk.
    + subst more y. destruct k as [|z k].
      * rewrite app_nil_r in *. simpl in Htl.
        destruct (IH [] Htl) as [_ Huy]. split; [|done].
        exists [c]. specialize (Hgroup []). rewrite app_nil_r in Hgroup.
        by rewrite Hgroup.
      * exfalso. apply Forall_app in Hmore as [_ Hk].
        apply Forall_cons in Hk as [Hz _]. simpl in Hy. lia.
Qed.

(** * Splitting and joining *)

Lemma bytes_join_cons sep f g fs :
  bytes_join sep (f :: g :: fs) = f ++ sep ++ bytes_join sep (g :: fs).
Proof. reflexivity. Qed.

Lemma bytes_join_head sep c f fs :
  bytes_join sep ((c :: f) :: fs) = c :: bytes_join sep (f :: fs).
Proof. by destruct fs. Qed.

Lemma split_from_join (sep s : bytes) (k : nat) :
  sep ≠ [] →
  (let (f, fs) := split_from sep s k in bytes_join sep (f :: fs)) = drop k s.
Proof.
  intros Hsep. revert k. induction s as [|c s IH]; intros k.
  - by destruct k.
  - destruct k as [|k]; [|exact (IH k)].
    change (split_from sep (c :: s) 0)
      with (if startswith sep (c :: s)
            then ([], let (f, fs) := split_from sep s (length sep - 1)
                      in f :: fs)
            else let (f, fs) := split_from sep s 0 in (c :: f, fs)).
    destruct (startswith sep (c :: s)) eqn:Hs.
    + apply startswith_inv in Hs as [rest Hrest].
      destruct sep as [|d sep]; [done|]. simpl in Hrest.
      injection Hrest as <- ->.
      specialize (IH (length (c :: sep) - 1)%nat).
      replace (length (c :: sep) - 1)%nat with (length sep) in *
        by (simpl; lia).
      destruct (split_from (c :: sep) (sep ++ rest) (length sep)) as [f fs].
      rewrite bytes_join_cons, IH, drop_app_length. done.
    + specialize (IH 0%nat).
      destruct (split_from sep s 0) as [f fs].
      rewrite bytes_join_head, IH. done.
Qed.

Lemma split_then_join_fragments (body delim : bytes) (fragments : list bytes) :
  bytes_split body delim = inr fragments →
  bytes_join delim fragments = body.
Proof.
  unfold bytes_split. destruct delim as [|d delim]; [done|].
  pose proof (split_from_join (d :: delim) body 0 ltac:(done)) as Hjoin.
  destruct (split_from (d :: delim) body 0) as [f fs].
  intros [= <-]. exact Hjoin.
Qed.

(** X16. Splitting loses nothing: the fragments into which the decoder
    splits a body, joined again by the delimiter, are the body. *)
Theorem split_then_join (body delim : bytes) (fragments : list bytes) :
  bytes_split body delim = inr fragments →
  bytes_join delim fragments = body.
Proof. apply split_then_join_fragments. Qed.

Lemma split_then_join_witness :
  bytes_join delim_B [[]; part_note; part_mp3; closing_B]
  = multipart_body delim_B [] [part_note; part_mp3] closing_B.
Proof.
  apply (split_then_join
           (multipart_body delim_B [] [part_note; part_mp3] closing_B)
           delim_B).
  vm_compute. reflexivity.
Defined.

(** * What is text stays text *)

Lemma utf8_join_fragments sep fs :
  sep ≠ [] → starts_ascii sep → utf8 sep →
  utf8 (bytes_join sep fs) → Forall utf8 fs.
Proof.
  intros Hne Hascii Hsep. induction fs as [|f fs IH]; [constructor|].
  destruct fs as [|g fs].
  - intros Hf. by repeat constructor.
  - rewrite bytes_join_cons. intros Hj.
    apply utf8_cut in Hj as [Hf Hrest].
    + constructor; [done|]. apply IH. by apply (utf8_app_inv_r sep).
    + by destruct sep.
Qed.

Lemma Forall_slice_1_m1 {A} (P : A → Prop) (l : list A) :
  Forall P l → Forall P (slice_1_m1 l).
Proof.
  intros Hl. unfold slice_1_m1.
  assert (Forall P (tail l)) as Ht by (destruct Hl; [constructor | done]).
  induction Ht as [|x t Hx Ht IH]; [constructor|].
  destruct t as [|y t]; [constructor|].
  change (removelast (x :: y :: t)) with (x :: removelast (y :: t)).
  by constructor.
Qed.

Lemma utf8_blank_line : utf8 blank_line.
Proof. by exists [13; 10; 13; 10]. Qed.

Lemma starts_ascii_newlines nl : Forall is_newline nl → starts_ascii nl.
Proof.
  destruct 1 as [|c nl [-> | ->] _]; [exact I|..]; vm_compute; reflexivity.
Qed.

Lemma bytes_rstrip_utf8 b : utf8 b → utf8 (bytes_rstrip b CRLF).
Proof.
  intros Hb. destruct (bytes_rstrip_cut b) as (nl & Hcut & Hnl).
  rewrite Hcut in Hb. apply utf8_cut in Hb as [Hc _]; [done|].
  by apply starts_ascii_newlines.
Qed.

Lemma parse_part_utf8 part name v :
  utf8 part → parse_part part = Store name v →
  match v with
  | Plain _ => True
  | FileField _ content => utf8 content
  end.
Proof.
  intros Hpart. unfold parse_part, bytes_split1.
  destruct (split_first blank_line part) as [[h b]|] eqn:Hs; [|done].
  apply split_first_inv in Hs as [-> _].
  destruct (bytes_decode h) as [|text]; [done|].
  destruct (re_search_content_disposition text) as [[n f]|]; [|done].
  destruct (truthy f).
  - intros [= <- <-]. apply bytes_rstrip_utf8.
    apply utf8_cut in Hpart as [_ Hrest]; [|vm_compute; reflexivity].
    by apply (utf8_app_inv_r blank_line), Hrest; apply utf8_blank_line.
  - destruct (bytes_decode _); [done|]. by intros [= <- <-].
Qed.

Lemma loop_invariant_in (P : str → field_value → Prop) st ps :
  (∀ p k v, p ∈ ps → parse_part p = Store k v → P k v) →
  map_Forall P st.1 → map_Forall P (foldl loop_step st ps).1.
Proof.
  revert st. induction ps as [|p ps IH]; intros st HP Hst; simpl; [done|].
  apply IH; [intros q k v Hq; apply HP; by right|].
  unfold loop_step.
  destruct (parse_part p) as [name v| |e] eqn:Hp; simpl; [|done..].
  apply map_Forall_insert_2; [|done]. apply (HP p); [by left | done].
Qed.

(** The decoder on a body that is text: every file content is text. *)
Lemma decoder_keeps_utf8 body ct fields log name filename content :
  utf8 body →
  parse_multipart_form_data body ct = inr (fields, log) →
  fields !! name = Some (FileField filename content) →
  utf8 content.
Proof.
  intros Hbody. unfold parse_multipart_form_data.
  destruct (re_search_boundary ct) as [tok|]; [|done].
  destruct (str_encode tok) as [|tb] eqn:Htb; [done|].
  destruct (bytes_split body _) as [|parts] eqn:Hsplit; [done|].
  intros [= Hrun] Hv.
  assert (Forall utf8 (slice_1_m1 parts)) as Hparts.
  { apply Forall_slice_1_m1.
    apply (utf8_join_fragments (blit "--" ++ tb)); [done | | |].
    - vm_compute. reflexivity.
    - apply utf8_app; [by exists [45; 45]|].
      exists tok. by apply str_encode_decode.
    - by rewrite (split_then_join_fragments _ _ _ Hsplit). }
  rewrite Forall_forall in Hparts.
  pose proof (loop_invariant_in
    (λ _ w, match w with
            | Plain _ => True
            | FileField _ c => utf8 c
            end)
    (∅, []) (slice_1_m1 parts)) as Hinv.
  rewrite Hrun in Hinv. simpl in Hinv.
  apply (Hinv (λ p k w Hp, parse_part_utf8 p k w (Hparts p Hp))
              (map_Forall_empty _) name _ Hv).
Qed.

Lemma decoder_values_no_trailing body ct fields log name v :
  parse_multipart_form_data body ct = inr (fields, log) →
  fields !! name = Some v →
  match v with
  | Plain value => no_trailing_newline_str value
  | FileField _ content => no_trailing_newline content
  end.
Proof.
  unfold parse_multipart_form_data.
  destruct (re_search_boundary ct) as [tok|]; [|done].
  destruct (str_encode tok) as [|tb]; [done|].
  destruct (bytes_split body _) as [|parts]; [done|].
  intros [= Hrun] Hv.
  pose proof (loop_invariant
    (λ _ w, match w with
            | Plain value => no_trailing_newline_str value
            | FileField _ content => no_trailing_newline content
            end)
    (∅, []) (slice_1_m1 parts)) as Hinv.
  rewrite Hrun in Hinv. simpl in Hinv.
  exact (Hinv (λ p k w Hp, parse_part_no_trailing p k w Hp)
              (map_Forall_empty _) name v Hv).
Qed.

Lemma decoder_names_quotable body ct fields log name v :
  parse_multipart_form_data body ct = inr (fields, log) →
  fields !! name = Some v →
  quotable name
  ∧ match v with
    | Plain _ => True
    | FileField filename _ => quotable filename
    end.
Proof.
  unfold parse_multipart_form_data.
  destruct (re_search_boundary ct) as [tok|]; [|done].
  destruct (str_encode tok) as [|tb]; [done|].
  destruct (bytes_split body _) as [|parts]; [done|].
  intros [= Hrun] Hv.
  pose proof (loop_invariant
    (λ k w, quotable k
            ∧ match w with
              | Plain _ => True
              | FileField filename _ => quotable filename
              end)
    (∅, []) (slice_1_m1 parts)) as Hinv.
  rewrite Hrun in Hinv. simpl in Hinv.
  exact (Hinv parse_part_quotable (map_Forall_empty _) name v Hv).
Qed.

(** X17. The upload handler encodes the text of the event before it
    decodes the parts, so what it sends to the storage is always valid
    UTF-8: the content of a request that passes the checks decodes as
    text, ends in no newline byte, and comes with a filename that is not
    empty and holds no double quote. A file that is not UTF-8 text cannot
    arrive as it was. *)
Theorem upload_stores_only_text
    (w : UploadFunction.world) (ev : UploadFunction.event)
    (bucket fname : str) (content : bytes) (log : list exn) :
  upload_validated w ev bucket fname content log →
  utf8 content ∧ no_trailing_newline content ∧ quotable fname.
Proof.
  intros (b & ct & fields & (text & items & _ & Henc & _) & Hp & Hf & _).
  split_and!.
  - apply (decoder_keeps_utf8 b ct fields log (slit "file") fname); [|done..].
    exists text. by apply str_encode_decode.
  - exact (decoder_values_no_trailing _ _ _ _ _ _ Hp Hf).
  - by destruct (decoder_names_quotable _ _ _ _ _ _ Hp Hf).
Qed.

Lemma upload_validated_ex_body :
  upload_validated upload_world (upload_event ex_body ct_B)
    (slit "input-bucket") (slit "a.mp3") (blit "ID3 data") [].
Proof.
  exists ex_body, ct_B,
    {[ slit "file" := FileField (slit "a.mp3") (blit "ID3 data") ]}.
  split_and!.
  - apply upload_request_event; [vm_compute; reflexivity | discriminate].
  - vm_compute. reflexivity.
  - vm_compute. reflexivity.
  - discriminate.
  - reflexivity.
Qed.

Lemma upload_stores_only_text_witness :
  utf8 (blit "ID3 data") ∧ no_trailing_newline (blit "ID3 data")
  ∧ quotable (slit "a.mp3").
Proof.
  exact (upload_stores_only_text upload_world (upload_event ex_body ct_B)
           (slit "input-bucket") (slit "a.mp3") (blit "ID3 data") []
           upload_validated_ex_body).
Defined.

Lemma str_encode_no_trailing t tb :
  str_encode t = inr tb → no_trailing_newline_str t → no_trailing_newline tb.
Proof.
  intros Henc Ht a c -> Hc.
  pose proof (str_encode_decode _ _ Henc) as Hdec.
  destruct (utf8_cut a [c]) as [[sa Ha] _].
  - by exists t.
  - destruct Hc as [-> | ->]; vm_compute; reflexivity.
  - rewrite (bytes_decode_app _ _ _ Ha) in Hdec.
    destruct Hc as [-> | ->]; simpl in Hdec; injection Hdec as <-.
    + by destruct (Ht sa 13 eq_refl).
    + by destruct (Ht sa 10 eq_refl).
Qed.

(** X18. A text field makes the round trip: when the payload of a part
    without filename is the UTF-8 encoding of a text that does not end in
    CR or LF, followed by the line end that precedes the next delimiter,
    the dictionary holds that text under the name of the part. *)
Theorem plain_text_round_trip
    (ct : str) (delim pre closing part : bytes) (ps1 ps2 : list bytes)
    (l : part_layout) (t : str) (tb : bytes) :
  announces ct delim →
  well_framed delim pre (ps1 ++ part :: ps2) closing →
  well_formed_part part l (tb ++ CRLF) →
  file_name l = None →
  str_encode t = inr tb →
  no_trailing_newline_str t →
  (∀ q, q ∈ ps2 → ¬ disposition_name q (field_name l)) →
  ∃ fields log,
    parse_multipart_form_data
      (multipart_body delim pre (ps1 ++ part :: ps2) closing) ct
    = inr (fields, log)
    ∧ fields !! field_name l = Some (Plain t).
Proof.
  intros Hann Hfr Hpart Hfile Henc Ht Hps2.
  apply decode_last_entry; [done..| |done].
  apply (plain_part_is_text _ _ (tb ++ CRLF)); [done..|].
  rewrite bytes_rstrip_newlines by by apply Forall_is_newline_check.
  rewrite bytes_rstrip_id by by eapply str_encode_no_trailing.
  by apply str_encode_decode.
Qed.

Lemma plain_text_round_trip_witness :
  ∃ fields log,
    parse_multipart_form_data
      (multipart_body delim_B [] ([part_mp3] ++ part_euro :: []) closing_B)
      ct_B
    = inr (fields, log)
    ∧ fields !! slit "note" = Some (Plain text_euro).
Proof.
  apply (plain_text_round_trip ct_B delim_B [] closing_B part_euro
           [part_mp3] [] (cd_layout "note" None) text_euro bytes_euro).
  - exact announces_B.
  - apply well_framed_check; vm_compute; reflexivity.
  - apply well_formed_sent_part; vm_compute; reflexivity.
  - reflexivity.
  - vm_compute. reflexivity.
  - intros a c Heq.
    assert (last text_euro = Some c) as Hlast.
    { rewrite Heq. apply last_snoc. }
    vm_compute in Hlast. injection Hlast as <-. split; discriminate.
  - intros q Hq. by apply elem_of_nil in Hq.
Defined.

Lemma upload_incomplete_cases w t ev :
  UploadFunction.ev_body ev = None
  ∨ UploadFunction.ev_headers ev = None
  ∨ (∃ items,
       UploadFunction.ev_headers ev = Some items
       ∧ ∀ kv, kv ∈ items →
               UploadFunction.lower w kv.1 ≠ slit "content-type") →
  ∃ e,
    Effects.upload_handler w t ev
    = ([Print (HandlerError e)],
       {| statusCode := 500; body := Failure "Error: " e |})
    ∧ e ∈ [KeyError "body"; UnicodeEncodeError; KeyError "headers";
           ValueError "Missing 'Content-Type' header."].
Proof.
  intros Hinc. unfold Effects.upload_handler, Effects.upload_try.
  destruct (UploadFunction.ev_body ev) as [text|] eqn:Hbody; simpl.
  2:{ eexists. split; [done|]. apply list_elem_of_here. }
  destruct (str_encode text) as [e|b] eqn:Henc; simpl.
  { assert (e = UnicodeEncodeError) as ->.
    { clear -Henc. revert e Henc. induction text as [|c text IH]; [done|].
      simpl. intros e.
      destruct (encode_char c); destruct (str_encode text); by intros [= <-]. }
    eexists. split; [done|].
    apply list_elem_of_further, list_elem_of_here. }
  destruct (UploadFunction.ev_headers ev) as [items|] eqn:Hh; simpl.
  2:{ eexists. split; [done|].
      do 2 apply list_elem_of_further. apply list_elem_of_here. }
  destruct Hinc as [?|[?|(items' & [= <-] & Hnone)]]; [done..|].
  destruct (UploadFunction.lowercase_keys w items !! slit "content-type")
    as [ct|] eqn:Hct.
  { unfold UploadFunction.lowercase_keys in Hct.
    by rewrite lowercase_keys_untouched in Hct. }
  simpl. eexists. split; [done|].
  do 3 apply list_elem_of_further. apply list_elem_of_here.
Qed.

(** X19. An upload event without the key [body], without the key
    [headers], or without a header whose name lower-cases to
    [content-type] is answered with status 500 (a missing key is not a 400
    here), the answer carries the [KeyError], the encoding error of the
    body or the message [Missing 'Content-Type' header.], and no service
    is called. *)
Theorem incomplete_upload_event
    (w : UploadFunction.world) (t : Effects.table)
    (ev : UploadFunction.event) :
  UploadFunction.ev_body ev = None
  ∨ UploadFunction.ev_headers ev = None
  ∨ (∃ items,
       UploadFunction.ev_headers ev = Some items
       ∧ ∀ kv, kv ∈ items →
               UploadFunction.lower w kv.1 ≠ slit "content-type") →
  ∃ e,
    (Effects.upload_handler w t ev).2
    = {| statusCode := 500; body := Failure "Error: " e |}
    ∧ UploadFunction.lambda_handler w ev
      = {| statusCode := 500; body := Failure "Error: " e |}
    ∧ e ∈ [KeyError "body"; UnicodeEncodeError; KeyError "headers";
           ValueError "Missing 'Content-Type' header."]
    ∧ service_calls (Effects.upload_handler w t ev).1 = [].
Proof.
  intros Hinc.
  destruct (upload_incomplete_cases w t ev Hinc) as (e & Hrun & He).
  exists e. split_and!; [by rewrite Hrun | | done | by rewrite Hrun].
  destruct (upload_trace_cases w t ev)
    as [(e' & tr & He' & Hrun' & _)
       |(bucket & fname & content & log & _ & _ & _ & Hrun')];
    rewrite Hrun in Hrun'; [|done].
  injection Hrun' as _ <-.
  unfold UploadFunction.lambda_handler. by rewrite He'.
Qed.

Lemma incomplete_upload_event_witness :
  ∃ e,
    (Effects.upload_handler upload_world table_down event_no_content_type).2
    = {| statusCode := 500; body := Failure "Error: " e |}
    ∧ UploadFunction.lambda_handler upload_world event_no_content_type
      = {| statusCode := 500; body := Failure "Error: " e |}
    ∧ e ∈ [KeyError "body"; UnicodeEncodeError; KeyError "headers";
           ValueError "Missing 'Content-Type' header."]
    ∧ service_calls
        (Effects.upload_handler upload_world table_down
           event_no_content_type).1 = [].
Proof.
  apply (incomplete_upload_event upload_world table_down
           event_no_content_type).
  right. right. exists [(slit "Accept", slit "*/*")]. split; [reflexivity|].
  intros kv Hkv%list_elem_of_singleton. subst kv. vm_compute. discriminate.
Defined.

(** * Parts that are skipped *)

Lemma loop_log_prefix m l ps :
  foldl loop_step (m, l) ps
  = ((foldl loop_step (m, []) ps).1, l ++ (foldl loop_step (m, []) ps).2).
Proof.
  revert m l. induction ps as [|p ps IH]; intros m l; simpl.
  - by rewrite app_nil_r.
  - unfold loop_step at 2 4 6. destruct (parse_part p) as [k v| |e]; simpl.
    + apply IH.
    + apply IH.
    + rewrite (IH m (l ++ [e])), (IH m [e]). simpl.
      by rewrite <- (assoc_L (++)).
Qed.

Lemma well_framed_without delim pre ps1 p ps2 closing :
  well_framed delim pre (ps1 ++ p :: ps2) closing →
  well_framed delim pre (ps1 ++ ps2) closing.
Proof.
  intros (Hpre & Hps & Hc). split_and!; [done| |done].
  apply Forall_app in Hps as [H1 H2]. apply Forall_cons in H2 as [_ H2].
  by apply Forall_app.
Qed.

Lemma bytes_decode_error_bounded n b e :
  (length b ≤ n)%nat → bytes_decode b = inl e → e = UnicodeDecodeError.
Proof.
  revert b e. induction n as [|n IH]; intros b e Hlen;
    destruct b as [|b0 r0]; simpl in *; try done; [lia|].
  assert (∀ r e', (length r ≤ length r0)%nat →
                  bytes_decode r = inl e' → e' = UnicodeDecodeError) as Hrec.
  { intros r e' Hr. apply IH. lia. }
  repeat case_match; simplify_eq; try (by intros [= <-]);
    intros [= <-]; (eapply Hrec; [|eassumption]); simpl; lia.
Qed.

Lemma bytes_decode_error b e :
  bytes_decode b = inl e → e = UnicodeDecodeError.
Proof. by apply (bytes_decode_error_bounded (length b)). Qed.

Lemma parse_part_bad_header part h b :
  part_of part h b → ¬ utf8 h → parse_part part = Caught UnicodeDecodeError.
Proof.
  intros Hp Hh. unfold parse_part. rewrite (bytes_split1_part _ _ _ Hp).
  destruct (bytes_decode h) as [e|text] eqn:Hd.
  - by rewrite (bytes_decode_error _ _ Hd).
  - destruct Hh. by exists text.
Qed.

Lemma parse_part_bad_payload part l payload :
  well_formed_part part l payload → file_name l = None →
  ¬ utf8 (bytes_rstrip payload CRLF) →
  parse_part part = Caught UnicodeDecodeError.
Proof.
  intros Hwf Hf Hp. rewrite (parse_part_well_formed _ _ _ Hwf), Hf.
  destruct (bytes_decode _) as [e|text] eqn:Hd.
  - by rewrite (bytes_decode_error _ _ Hd).
  - destruct Hp. by exists text.
Qed.

Lemma broken_part_caught part :
  broken_part part →
  ∃ e, parse_part part = Caught e
       ∧ (e = unpack_error ∨ e = UnicodeDecodeError).
Proof.
  intros [Hn | [(h & b & Hp & Hh) | (l & payload & Hwf & Hf & Hp)]].
  - exists unpack_error. split; [by apply parse_part_no_blank_line | by left].
  - exists UnicodeDecodeError.
    split; [by eapply parse_part_bad_header | by right].
  - exists UnicodeDecodeError.
    split; [by eapply parse_part_bad_payload | by right].
Qed.

(** X20. One part that cannot be read never disturbs the others: a framed
    body with such a part decodes to the same dictionary as the body
    without it, and the printed lines differ by the one error of that
    part, an unpacking error or a decoding error. *)
Theorem broken_part_changes_nothing
    (ct : str) (delim pre closing p : bytes) (ps1 ps2 : list bytes) :
  announces ct delim →
  well_framed delim pre (ps1 ++ p :: ps2) closing →
  broken_part p →
  ∃ fields log1 e log2,
    parse_multipart_form_data
      (multipart_body delim pre (ps1 ++ p :: ps2) closing) ct
    = inr (fields, log1 ++ e :: log2)
    ∧ parse_multipart_form_data
        (multipart_body delim pre (ps1 ++ ps2) closing) ct
      = inr (fields, log1 ++ log2)
    ∧ (e = unpack_error ∨ e = UnicodeDecodeError).
Proof.
  intros Hann Hfr Hbad.
  destruct (broken_part_caught p Hbad) as (e & Hp & He).
  rewrite (decode_framed _ _ _ _ _ Hann Hfr).
  rewrite (decode_framed _ _ _ _ _ Hann (well_framed_without _ _ _ _ _ _ Hfr)).
  rewrite !foldl_app. simpl.
  destruct (foldl loop_step (∅, []) ps1) as [m1 l1].
  rewrite (loop_step_caught _ _ _ Hp). simpl.
  rewrite (loop_log_prefix m1 (l1 ++ [e])), (loop_log_prefix m1 l1).
  exists (foldl loop_step (m1, []) ps2).1, l1, e,
         (foldl loop_step (m1, []) ps2).2.
  split_and!; [|done..]. by rewrite <- (assoc_L (++)).
Qed.

Lemma broken_part_changes_nothing_witness :
  ∃ fields log1 e log2,
    parse_multipart_form_data
      (multipart_body delim_B []
         ([part_note] ++ part_latin1 :: [part_mp3]) closing_B) ct_B
    = inr (fields, log1 ++ e :: log2)
    ∧ parse_multipart_form_data
        (multipart_body delim_B [] ([part_note] ++ [part_mp3]) closing_B) ct_B
      = inr (fields, log1 ++ log2)
    ∧ (e = unpack_error ∨ e = UnicodeDecodeError).
Proof.
  apply (broken_part_changes_nothing ct_B delim_B [] closing_B part_latin1
           [part_note] [part_mp3]).
  - exact announces_B.
  - apply well_framed_check; vm_compute; reflexivity.
  - right. right. exists (cd_layout "note" None), ([x63; xe9] ++ CRLF).
    split_and!.
    + apply well_formed_sent_part; vm_compute; reflexivity.
    + reflexivity.
    + intros [s Hs]. vm_compute in Hs. discriminate.
Defined.

Lemma unnamed_part_continue part : unnamed_part part → parse_part part = Continue.
Proof.
  intros (h & b & text & Hp & Hh & Hn). unfold parse_part.
  rewrite (bytes_split1_part _ _ _ Hp), Hh.
  rewrite re_search_content_disposition_empty_names; [done|].
  intros a b' ->. destruct Hn. by exists a, b'.
Qed.

(** X21. A part whose headers have no Content-Disposition name attribute
    is passed over in silence: a framed body with such a part decodes to
    the same dictionary and the same printed lines as the body without
    it. *)
Theorem unnamed_part_is_ignored
    (ct : str) (delim pre closing p : bytes) (ps1 ps2 : list bytes) :
  announces ct delim →
  well_framed delim pre (ps1 ++ p :: ps2) closing →
  unnamed_part p →
  parse_multipart_form_data
    (multipart_body delim pre (ps1 ++ p :: ps2) closing) ct
  = parse_multipart_form_data
      (multipart_body delim pre (ps1 ++ ps2) closing) ct.
Proof.
  intros Hann Hfr Hp.
  rewrite (decode_framed _ _ _ _ _ Hann Hfr).
  rewrite (decode_framed _ _ _ _ _ Hann (well_framed_without _ _ _ _ _ _ Hfr)).
  rewrite !foldl_app. simpl.
  by rewrite (loop_step_continue _ _ (unnamed_part_continue _ Hp)).
Qed.

Lemma unnamed_part_is_ignored_witness :
  parse_multipart_form_data
    (multipart_body delim_B [] ([part_note] ++ part_other :: [part_mp3])
       closing_B) ct_B
  = parse_multipart_form_data
      (multipart_body delim_B [] ([part_note] ++ [part_mp3]) closing_B) ct_B.
Proof.
  apply (unnamed_part_is_ignored ct_B delim_B [] closing_B part_other
           [part_note] [part_mp3]).
  - exact announces_B.
  - apply well_framed_check; vm_compute; reflexivity.
  - exists (CRLF ++ blit "Content-Type: text/plain"), (blit "x" ++ CRLF),
      (13 :: 10 :: slit "Content-Type: text/plain").
    split_and!.
    + split; [reflexivity|]. apply first_at_endb_sound. vm_compute.
      reflexivity.
    + vm_compute. reflexivity.
    + apply occursb_false. vm_compute. reflexivity.
Defined.

(** * The upload handler and the other fields *)

(** X22. Of the decoded fields the upload handler uses [file] and no
    other: two requests whose dictionaries have the same [file] entry get
    the same answer and make the same calls, whatever else their bodies
    hold. *)
Theorem upload_uses_file_field_only
    (w : UploadFunction.world) (t : Effects.table)
    (ev ev' : UploadFunction.event) (b b' : bytes) (ct ct' : str)
    (fields fields' : gmap str field_value) (log log' : list exn) :
  upload_request w ev b ct →
  upload_request w ev' b' ct' →
  parse_multipart_form_data b ct = inr (fields, log) →
  parse_multipart_form_data b' ct' = inr (fields', log') →
  fields !! slit "file" = fields' !! slit "file" →
  (Effects.upload_handler w t ev).2 = (Effects.upload_handler w t ev').2
  ∧ service_calls (Effects.upload_handler w t ev).1
    = service_calls (Effects.upload_handler w t ev').1.
Proof.
  intros (text & items & Hb & He & Hh & Hc & Hne)
         (text' & items' & Hb' & He' & Hh' & Hc' & Hne') Hp Hp' Hfile.
  unfold Effects.upload_handler, Effects.upload_try.
  rewrite Hb, Hh, Hb', Hh'. simpl. rewrite He, He'. simpl. rewrite Hc, Hc'.
  destruct ct as [|c ct]; [done|]. destruct ct' as [|c' ct']; [done|].
  simpl. rewrite Hp, Hp'. simpl. rewrite Hfile.
  destruct (fields' !! slit "file") as [[value|fname content]|]; simpl.
  2: destruct content as [|x content]; simpl.
  3: destruct (UploadFunction.environ_INPUT_BUCKET w) as [bucket|]; simpl.
  3: destruct (UploadFunction.s3_put_object w bucket _ (x :: content))
       as [e|]; simpl.
  all: split; [done|];
    by rewrite ?app_nil_r, !service_calls_app, !service_calls_print_errors.
Qed.

Lemma upload_uses_file_field_only_witness :
  (Effects.upload_handler upload_world table_down
     (upload_event ex_body ct_B)).2
  = (Effects.upload_handler upload_world table_down
       (upload_event
          (multipart_body delim_B [] [part_note; part_mp3] closing_B) ct_B)).2
  ∧ service_calls
      (Effects.upload_handler upload_world table_down
         (upload_event ex_body ct_B)).1
    = service_calls
        (Effects.upload_handler upload_world table_down
           (upload_event
              (multipart_body delim_B [] [part_note; part_mp3] closing_B)
              ct_B)).1.
Proof.
  apply (upload_uses_file_field_only upload_world table_down
           (upload_event ex_body ct_B)
           (upload_event
              (multipart_body delim_B [] [part_note; part_mp3] closing_B) ct_B)
           ex_body
           (multipart_body delim_B [] [part_note; part_mp3] closing_B)
           ct_B ct_B
           {[ slit "file" := FileField (slit "a.mp3") (blit "ID3 data") ]}
           {[ slit "note" := Plain (slit "hello");
              slit "file" := FileField (slit "a.mp3") (blit "ID3 data") ]}
           [] []).
  - apply upload_request_event; [vm_compute; reflexivity | discriminate].
  - apply upload_request_event; [vm_compute; reflexivity | discriminate].
  - vm_compute. reflexivity.
  - vm_compute. reflexivity.
  - vm_compute. reflexivity.
Defined.
